(** * Linux Show Player: sequencing policy and decorator helpers

    A shallow embedding of

    - [lisp/layouts/list_layout/layout.py]: the part of [ListLayout] that
      decides which cue is selected and executed ([set_current_index], [go],
      [__cue_next]);
    - [lisp/core/decorators.py]: [synchronized_function],
      [synchronized_method], [suppress_exceptions], [memoize] and
      [typechecked].

    Python code is modelled as state passing with exceptions: a computation
    takes the state of the world it can touch and gives back an outcome
    (a returned value or a raised exception) together with the new state. *)

From Stdlib Require Import ZArith Lia.
From stdpp Require Import base option list gmap strings pretty.

Local Open Scope Z_scope.

(** ** Python outcomes *)

(** The exception classes the two files raise, catch or let through.
    [KeyboardInterrupt] and [SystemExit] derive from [BaseException] only;
    everything else derives from [Exception]. *)
Inductive exn : Type :=
  | TypeError (msg : string)
  | ValueError (msg : string)
  | RuntimeError (msg : string)
  | IndexError
  | KeyError
  | ZeroDivisionError
  | OverflowError
  | KeyboardInterrupt
  | SystemExit
  | UserError (name : string).

Global Instance exn_eq_dec : EqDecision exn.
Proof. solve_decision. Defined.

(** [isinstance(e, Exception)] *)
Definition is_Exception (e : exn) : bool :=
  match e with
  | KeyboardInterrupt | SystemExit => false
  | _ => true
  end.

Inductive outcome (A : Type) : Type :=
  | Return (a : A)
  | Raise (e : exn).
Arguments Return {A} a.
Arguments Raise {A} e.

(** A Python computation over a world of type [W]. *)
Definition Py (W A : Type) : Type := W -> outcome A * W.

Definition ret {W A} (a : A) : Py W A := fun w => (Return a, w).

Definition raise {W A} (e : exn) : Py W A := fun w => (Raise e, w).

Definition bind {W A B} (m : Py W A) (k : A -> Py W B) : Py W B :=
  fun w =>
    match m w with
    | (Return a, w') => k a w'
    | (Raise e, w') => (Raise e, w')
    end.

Definition lift {W A} (o : outcome A) : Py W A := fun w => (o, w).

Definition modify {W} (f : W -> W) : Py W unit := fun w => (Return tt, f w).

Definition gets {W A} (f : W -> A) : Py W A := fun w => (Return (f w), w).

Declare Scope py_scope.
Delimit Scope py_scope with py.
Notation "'let*' x ':=' m 'in' k" := (bind m (fun x => k))
  (at level 10, x name, m at level 100, k at level 200) : py_scope.
Notation "m '>>' k" := (bind m (fun _ => k))
  (at level 90, right associativity) : py_scope.
Local Open Scope py_scope.

(** [try: body except (classes): handler] *)
Definition try_except {W A} (body : Py W A) (catches : exn -> bool)
    (handler : exn -> Py W A) : Py W A :=
  fun w =>
    match body w with
    | (Raise e, w') => if catches e then handler e w' else (Raise e, w')
    | r => r
    end.

(** [try: body finally: cleanup]. The cleanup runs on every path; if it
    raises, its exception replaces the outcome of the body. *)
Definition try_finally {W A} (body : Py W A) (cleanup : Py W unit) : Py W A :=
  fun w =>
    match body w with
    | (o, w') =>
        match cleanup w' with
        | (Return _, w'') => (o, w'')
        | (Raise e, w'') => (Raise e, w'')
        end
    end.

(** Python's [a % b] on integers: the result takes the sign of the divisor,
    and a zero divisor raises. *)
Definition py_mod (a b : Z) : outcome Z :=
  if decide (b = 0) then Raise ZeroDivisionError else Return (a mod b).

(** ** The list layout ([layout.py]) *)

Inductive EndListBehavior : Type := Stop | Restart.

Global Instance EndListBehavior_eq_dec : EqDecision EndListBehavior.
Proof. solve_decision. Defined.

(** [CueAction] is imported from the cue module; the layout only names its
    [Default] member and otherwise passes actions through. *)
Inductive CueAction : Type :=
  | Default
  | Action (name : string).

Global Instance CueAction_eq_dec : EqDecision CueAction.
Proof. solve_decision. Defined.

(** A cue as the layout sees it: an object identity and the [index]
    attribute read by [__cue_next]. *)
Record Cue : Type := { cue_id : nat; index : Z }.

Global Instance Cue_eq_dec : EqDecision Cue.
Proof. solve_decision. Defined.

(** What the layout does to its collaborators: [cue.execute(...)] (with the
    action passed, or [None] when called without argument) and the
    [cue_executed] signal. *)
Inductive Event : Type :=
  | CueExecute (c : Cue) (action : option CueAction)
  | CueExecutedEmit (c : Cue).

(** The list widget: one top-level item per cue, and the row of the current
    item ([-1] when there is none, as [currentIndex().row()] gives). *)
Record CueListView : Type := {
  topLevelItems : list Cue;
  currentRow : Z
}.

Record ListLayout : Type := {
  _model_adapter : list Cue;
  listView : CueListView;
  _auto_continue : bool;
  _end_list : EndListBehavior;
  events : list Event
}.

(** [len(self._model_adapter)] *)
Definition len (m : list Cue) : Z := Z.of_nat (length m).

(** [self.listView.topLevelItemCount()] *)
Definition topLevelItemCount (v : CueListView) : Z :=
  Z.of_nat (length (topLevelItems v)).

(** [self.listView.setCurrentItem(self.listView.topLevelItem(row))] *)
Definition setCurrentItem (row : Z) (l : ListLayout) : ListLayout :=
  {| _model_adapter := _model_adapter l;
     listView := {| topLevelItems := topLevelItems (listView l);
                    currentRow := row |};
     _auto_continue := _auto_continue l;
     _end_list := _end_list l;
     events := events l |}.

Definition emit (e : Event) (l : ListLayout) : ListLayout :=
  {| _model_adapter := _model_adapter l;
     listView := listView l;
     _auto_continue := _auto_continue l;
     _end_list := _end_list l;
     events := events l ++ [e] |}.

(** The view shows exactly the cues of the model adapter it was built on. *)
Definition view_synced (l : ListLayout) : Prop :=
  topLevelItems (listView l) = _model_adapter l.

Definition current_index (l : ListLayout) : Z := currentRow (listView l).

(** The cue at position [i] of an ordered cue list, if any. *)
Definition item (m : list Cue) (i : Z) : option Cue :=
  if decide (0 <= i) then m !! Z.to_nat i else None.

(** Modelled from the spec: [current_cue] is inherited from [CueLayout]
    ([cue_layout.py]); it gives "the cue at [current_index] (if any)". *)
Definition current_cue (l : ListLayout) : option Cue :=
  item (_model_adapter l) (current_index l).

Definition set_current_index (index : Z) : Py ListLayout unit :=
  fun l =>
    (let* index :=
       (if decide (_end_list l = Restart)
        then lift (py_mod index (len (_model_adapter l)))
        else ret index) in
     if decide (0 <= index < topLevelItemCount (listView l))
     then modify (setCurrentItem index)
     else ret tt) l.

Definition go (action : CueAction) (advance : Z) : Py ListLayout unit :=
  fun l =>
    match current_cue l with
    | Some current_cue =>
        (modify (emit (CueExecute current_cue (Some action))) >>
         modify (emit (CueExecutedEmit current_cue)) >>
         fun l' =>
           if _auto_continue l'
           then set_current_index (current_index l' + advance) l'
           else ret tt l') l
    | None => ret tt l
    end.

Definition is_lookup_error (e : exn) : bool :=
  match e with
  | IndexError | KeyError => true
  | _ => false
  end.

Section CueNext.
(** [self._model_adapter.get]: the indexed lookup of the cue container
    ([CueTreeModel], defined in [cue_list_model.py]). *)
Variable get : list Cue -> Z -> outcome Cue.

Definition __cue_next (cue : Cue) : Py ListLayout unit :=
  try_except
    (fun l =>
       let next_index := index cue + 1 in
       if decide (next_index < len (_model_adapter l)) then
         (let* next_cue := lift (get (_model_adapter l) next_index) in
          modify (emit (CueExecute next_cue None)) >>
          fun l' =>
            if _auto_continue l'
               && bool_decide (Some next_cue = current_cue l')
            then set_current_index (next_index + 1) l'
            else ret tt l') l
       else ret tt l)
    is_lookup_error
    (fun _ => ret tt).

End CueNext.

(** Modelled from the spec: an instance of the container's "indexed
    lookup" ([CueTreeModel.get]), a position outside the list being a
    "lookup failure (index or key error)". *)
Definition list_get (m : list Cue) (i : Z) : outcome Cue :=
  match item m i with
  | Some c => Return c
  | None => Raise IndexError
  end.

(** ** The decorators ([decorators.py]) *)

(** *** Re-entrant locks *)

Definition thread : Type := nat.

(** [threading.RLock]: free, or owned by a thread that has re-entered it
    [reentries] times on top of its first acquisition. *)
Inductive RLock : Type :=
  | Unlocked
  | Locked (owner : thread) (reentries : nat).

Global Instance RLock_eq_dec : EqDecision RLock.
Proof. solve_decision. Defined.

(** [threading.TIMEOUT_MAX], in seconds, where the timeout of a lock is
    kept as a 64-bit count of nanoseconds (Linux, macOS). *)
Definition TIMEOUT_MAX : Z := 9223372036.

(** [lock.acquire(blocking=..., timeout=...)] called by thread [me], as the
    library does it, for a call during which no other thread runs. The
    arguments are looked at before the lock: a timeout that cannot be
    converted, an integer beyond [TIMEOUT_MAX] of either sign, raises
    [OverflowError]; then a timeout is only accepted in blocking mode, and
    [-1] is the only negative timeout. [None] stands for a call that does
    not return: an unbounded wait for a lock that another thread keeps. *)
Definition RLock_acquire (me : thread) (blocking : bool) (timeout : Z)
    (lk : RLock) : option (outcome bool * RLock) :=
  if TIMEOUT_MAX <? Z.abs timeout then
    Some (Raise OverflowError, lk)
  else if negb blocking && negb (timeout =? -1) then
    Some (Raise (ValueError "can't specify a timeout for a non-blocking call"), lk)
  else if (timeout <? 0) && negb (timeout =? -1) then
    Some (Raise (ValueError "timeout value must be positive"), lk)
  else
    match lk with
    | Unlocked => Some (Return true, Locked me 0)
    | Locked o n =>
        if decide (o = me) then Some (Return true, Locked me (S n))
        else if blocking && (timeout =? -1) then None
        else Some (Return false, lk)
    end.

(** [lock.release()] called by thread [me]. *)
Definition RLock_release (me : thread) (lk : RLock) : outcome unit * RLock :=
  match lk with
  | Locked o n =>
      if decide (o = me)
      then (Return tt, match n with O => Unlocked | S n' => Locked me n' end)
      else (Raise (RuntimeError "cannot release un-acquired lock"), lk)
  | Unlocked => (Raise (RuntimeError "cannot release un-acquired lock"), lk)
  end.

(** The two ways an [acquire] may come back empty-handed: non-blocking
    mode, or a blocking call with a timeout, one that [acquire] accepts,
    that elapses. *)
Definition gives_up (blocking : bool) (timeout : Z) : Prop :=
  (blocking = false /\ timeout = -1) \/
  (blocking = true /\ 0 <= timeout <= TIMEOUT_MAX).

Definition is_RuntimeError (e : exn) : bool :=
  match e with
  | RuntimeError _ => true
  | _ => false
  end.

Definition is_RuntimeError_raised {A} (o : outcome A) : Prop :=
  match o with
  | Raise e => is_RuntimeError e = true
  | Return _ => False
  end.

(** The value of a call that may end in a bare [return]: [None] is Python's
    [None] given for "no result". *)
Definition returning {W R} (m : Py W R) : Py W (option R) :=
  let* r := m in ret (Some r).

(** The outcome of [returning m] for an outcome of [m]. *)
Definition outcome_some {R} (o : outcome R) : outcome (option R) :=
  match o with
  | Return r => Return (Some r)
  | Raise e => Raise e
  end.

Section SynchronizedFunction.

Context {A R S : Type}.

(** The decorated function object with its [__lock__] attribute, and the
    rest of the world the function body works on. *)
Record FunWorld : Type := {
  __lock__ : RLock;
  fun_state : S
}.

Definition set___lock__ (lk : RLock) (w : FunWorld) : FunWorld :=
  {| __lock__ := lk; fun_state := fun_state w |}.

Variable target : A -> Py FunWorld R.
Variables (blocking : bool) (timeout : Z).

(** The inner function [synchronized], called by thread [me]. *)
Definition synchronized (me : thread) (args : A)
    : FunWorld -> option (outcome (option R) * FunWorld) :=
  fun w =>
    match RLock_acquire me blocking timeout (__lock__ w) with
    | None => None
    | Some (acquired, lk) =>
        Some
          (try_finally
             (let* got := (fun w => (acquired, set___lock__ lk w)) in
              if got : bool then returning (target args) else ret None)
             (try_except
                (fun w =>
                   let (r, lk') := RLock_release me (__lock__ w) in
                   (r, set___lock__ lk' w))
                is_RuntimeError
                (fun _ => ret tt))
             w)
    end.

End SynchronizedFunction.

(** Lock objects live in a store and are named by their location, so that
    an attribute and a local variable can refer to the same lock. *)
Definition loc : Type := nat.

Section SynchronizedMethod.

Context {A R S : Type}.

(** The module-level [_synchronized_meta_lock] (a plain [Lock]: [true]
    when held), the attributes of the receiving object that refer to locks,
    the lock objects themselves, and the rest of the world. *)
Record MethWorld : Type := {
  _synchronized_meta_lock : bool;
  self_attrs : gmap string loc;
  lock_objects : gmap loc RLock;
  meth_state : S
}.

(** The state of the lock object at [l]. *)
Definition lock_state (l : loc) (w : MethWorld) : RLock :=
  default Unlocked (lock_objects w !! l).

Definition set_lock_state (l : loc) (lk : RLock) (w : MethWorld) : MethWorld :=
  {| _synchronized_meta_lock := _synchronized_meta_lock w;
     self_attrs := self_attrs w;
     lock_objects := <[l := lk]> (lock_objects w);
     meth_state := meth_state w |}.

Variable target : A -> Py MethWorld R.
Variable target___name__ : string.
Variable lock_name : option string.
Variables (blocking : bool) (timeout : Z).

(** [lock_name] when it is a string, else ["__" + target.__name__ + "_lock__"] *)
Definition resolved_lock_name : string :=
  match lock_name with
  | Some name => name
  | None => "__" +:+ target___name__ +:+ "_lock__"
  end.

(** Where [RLock()] puts the new lock: a location at which there is no
    lock object and to which no attribute refers. *)
Definition new_object (w : MethWorld) : loc :=
  fresh (dom (lock_objects w) ∪ map_img (self_attrs w) : gset loc).

(** The block under [with _synchronized_meta_lock]: the lock the attribute
    [name] refers to; if there is none, a new [RLock()] is made and the
    attribute set to it. *)
Definition get_or_create_lock (name : string) (w : MethWorld)
    : loc * MethWorld :=
  match self_attrs w !! name with
  | Some lock => (lock, w)
  | None =>
      let lock := new_object w in
      (lock,
       {| _synchronized_meta_lock := _synchronized_meta_lock w;
          self_attrs := <[name := lock]> (self_attrs w);
          lock_objects := <[lock := Unlocked]> (lock_objects w);
          meth_state := meth_state w |})
  end.

(** The inner function [wrapped] of [synchronized_method], called by thread
    [me] on the receiver whose attributes the world holds. The local
    variable [lock] keeps the lock found or made at the start: the acquire
    and the release of the [finally] clause go to that object, whatever the
    body does to the attribute. *)
Definition synchronized_method_wrapped (me : thread) (args : A)
    : MethWorld -> option (outcome (option R) * MethWorld) :=
  fun w =>
    if _synchronized_meta_lock w then None
    else
      let (lock, w) := get_or_create_lock resolved_lock_name w in
      match RLock_acquire me blocking timeout (lock_state lock w) with
      | None => None
      | Some (acquired, lk) =>
          Some
            (try_finally
               (let* got := (fun w => (acquired, set_lock_state lock lk w)) in
                if got : bool then returning (target args) else ret None)
               (try_except
                  (fun w =>
                     let (r, lk') := RLock_release me (lock_state lock w) in
                     (r, set_lock_state lock lk' w))
                  is_RuntimeError
                  (fun _ => ret tt))
               w)
      end.

End SynchronizedMethod.

(** *** Threads calling one synchronized callable *)

(** An activation of a wrapper is either at its [acquire] call or inside
    the body it wraps. [lock] is what the local variable [lock] of the
    method wrapper refers to; the function wrapper has no such variable and
    reads [target.__lock__] each time. *)
Inductive frame (L : Type) : Type :=
  | Acquiring (lock : L)
  | Running (lock : L).
Arguments Acquiring {L} lock.
Arguments Running {L} lock.

Definition frame_lock {L} (f : frame L) : L :=
  match f with
  | Acquiring lock | Running lock => lock
  end.

(** A thread calls from outside or from inside a body, not while it waits
    in [acquire]. *)
Definition may_call {L} (st : list (frame L)) : Prop :=
  match st with
  | Acquiring _ :: _ => False
  | _ => True
  end.

(** The number of bodies a thread is inside of. *)
Fixpoint running {L} (st : list (frame L)) : nat :=
  match st with
  | [] => O
  | Running _ :: rest => S (running rest)
  | Acquiring _ :: rest => running rest
  end.

(** How many times [t] holds the lock. *)
Definition holds (t : thread) (lk : RLock) : nat :=
  match lk with
  | Locked o n => if decide (o = t) then S n else O
  | Unlocked => O
  end.

Section FunctionThreads.

Context {S : Type}.

(** The world of the decorated function and, per thread, its stack of
    activations of [synchronized] (innermost first). *)
Record FunThreads : Type := {
  fun_world : @FunWorld S;
  fun_stacks : gmap thread (list (frame unit))
}.

Definition fun_stack (t : thread) (c : FunThreads) : list (frame unit) :=
  default [] (fun_stacks c !! t).

Definition fun_set (t : thread) (st : list (frame unit)) (w : FunWorld)
    (c : FunThreads) : FunThreads :=
  {| fun_world := w; fun_stacks := <[t := st]> (fun_stacks c) |}.

Definition set_fun_state (st : S) (w : @FunWorld S) : FunWorld :=
  {| __lock__ := __lock__ w; fun_state := st |}.

(** One step of one thread through [synchronized], made with
    [blocking=True] and [timeout=-1]: the thread calls the wrapper (from
    outside, or from inside the body it is running); its pending
    [target.__lock__.acquire] comes back with [True]; the body it is in
    works on the state, leaving [target.__lock__] alone; or that body ends
    (by returning or raising) and the [finally] clause calls
    [target.__lock__.release()], a [RuntimeError] of which is dropped. *)
Inductive fun_step : FunThreads -> FunThreads -> Prop :=
  | fun_call (t : thread) (c : FunThreads) :
      may_call (fun_stack t c) ->
      fun_step c (fun_set t (Acquiring tt :: fun_stack t c) (fun_world c) c)
  | fun_acquire (t : thread) (c : FunThreads) (rest : list (frame unit))
        (lk : RLock) :
      fun_stack t c = Acquiring tt :: rest ->
      RLock_acquire t true (-1) (__lock__ (fun_world c)) =
        Some (Return true, lk) ->
      fun_step c
        (fun_set t (Running tt :: rest) (set___lock__ lk (fun_world c)) c)
  | fun_body (t : thread) (c : FunThreads) (rest : list (frame unit))
        (st : S) :
      fun_stack t c = Running tt :: rest ->
      fun_step c
        (fun_set t (Running tt :: rest) (set_fun_state st (fun_world c)) c)
  | fun_leave (t : thread) (c : FunThreads) (rest : list (frame unit)) :
      fun_stack t c = Running tt :: rest ->
      fun_step c
        (fun_set t rest
           (set___lock__ (RLock_release t (__lock__ (fun_world c))).2
              (fun_world c)) c).

(** Right after decoration: [target.__lock__ = RLock()], nobody has called. *)
Definition fun_init (st : S) : FunThreads :=
  {| fun_world := {| __lock__ := Unlocked; fun_state := st |};
     fun_stacks := ∅ |}.

Inductive fun_reachable : FunThreads -> Prop :=
  | fun_reach_init (st : S) : fun_reachable (fun_init st)
  | fun_reach_step (c c' : FunThreads) :
      fun_reachable c -> fun_step c c' -> fun_reachable c'.

End FunctionThreads.

Section MethodThreads.

Context {S : Type}.

(** The name of the lock attribute. *)
Variable name : string.

(** The world of the receiving object and, per thread, its stack of
    activations of [wrapped] (innermost first), each with its [lock]. *)
Record MethThreads : Type := {
  meth_world : @MethWorld S;
  meth_stacks : gmap thread (list (frame loc))
}.

Definition meth_stack (t : thread) (c : MethThreads) : list (frame loc) :=
  default [] (meth_stacks c !! t).

Definition meth_set (t : thread) (st : list (frame loc)) (w : MethWorld)
    (c : MethThreads) : MethThreads :=
  {| meth_world := w; meth_stacks := <[t := st]> (meth_stacks c) |}.

Definition set_meth_state (st : S) (w : @MethWorld S) : MethWorld :=
  {| _synchronized_meta_lock := _synchronized_meta_lock w;
     self_attrs := self_attrs w;
     lock_objects := lock_objects w;
     meth_state := st |}.

(** The state of the lock the attribute refers to; an object without the
    attribute has, as yet, a lock nobody holds. *)
Definition method_lock (w : @MethWorld S) : RLock :=
  match self_attrs w !! name with
  | Some lock => lock_state lock w
  | None => Unlocked
  end.

(** One step of one thread through [wrapped], made with [blocking=True]
    and [timeout=-1]: the thread calls the wrapper and goes through the
    block under [with _synchronized_meta_lock], which finds or makes the
    lock; its pending [lock.acquire] comes back with [True]; the body it is
    in works on the state, leaving the attribute and the lock objects
    alone; or that body ends (by returning or raising) and the [finally]
    clause calls [lock.release()], a [RuntimeError] of which is dropped. *)
Inductive meth_step : MethThreads -> MethThreads -> Prop :=
  | meth_call (t : thread) (c : MethThreads) (lock : loc) (w' : MethWorld) :
      may_call (meth_stack t c) ->
      _synchronized_meta_lock (meth_world c) = false ->
      get_or_create_lock name (meth_world c) = (lock, w') ->
      meth_step c (meth_set t (Acquiring lock :: meth_stack t c) w' c)
  | meth_acquire (t : thread) (c : MethThreads) (lock : loc)
        (rest : list (frame loc)) (lk : RLock) :
      meth_stack t c = Acquiring lock :: rest ->
      RLock_acquire t true (-1) (lock_state lock (meth_world c)) =
        Some (Return true, lk) ->
      meth_step c
        (meth_set t (Running lock :: rest)
           (set_lock_state lock lk (meth_world c)) c)
  | meth_body (t : thread) (c : MethThreads) (lock : loc)
        (rest : list (frame loc)) (st : S) :
      meth_stack t c = Running lock :: rest ->
      meth_step c
        (meth_set t (Running lock :: rest)
           (set_meth_state st (meth_world c)) c)
  | meth_leave (t : thread) (c : MethThreads) (lock : loc)
        (rest : list (frame loc)) :
      meth_stack t c = Running lock :: rest ->
      meth_step c
        (meth_set t rest
           (set_lock_state lock
              (RLock_release t (lock_state lock (meth_world c))).2
              (meth_world c)) c).

(** Before the first call: the meta lock is free, and the lock attribute
    is missing or, made by the user, refers to a lock nobody holds. *)
Definition meth_init (w : @MethWorld S) : MethThreads :=
  {| meth_world := w; meth_stacks := ∅ |}.

Inductive meth_reachable : MethThreads -> Prop :=
  | meth_reach_init (w : MethWorld) :
      _synchronized_meta_lock w = false ->
      method_lock w = Unlocked ->
      meth_reachable (meth_init w)
  | meth_reach_step (c c' : MethThreads) :
      meth_reachable c -> meth_step c c' -> meth_reachable c'.

End MethodThreads.

(** *** Exception suppression *)

Section SuppressExceptions.

Context {A R W : Type}.

(** [traceback.format_exc()] for the exception being handled. *)
Variable format_exc : exn -> string.

(** The world of the wrapped callable together with the warnings given to
    [logging.warning]. *)
Record Logged : Type := {
  warnings : list string;
  logged_world : W
}.

Definition logging_warning (msg : string) (w : Logged) : Logged :=
  {| warnings := warnings w ++ [msg]; logged_world := logged_world w |}.

Definition newline : string := String (Ascii.ascii_of_nat 10) EmptyString.

(** The inner function [wrapped] of [suppress_exceptions]. *)
Definition suppress_wrapped (target : A -> Py Logged R) (args : A)
    : Py Logged (option R) :=
  try_except
    (returning (target args))
    is_Exception
    (fun e =>
       modify (logging_warning
                 ("Exception suppressed:" +:+ newline +:+ format_exc e)) >>
       ret None).

Definition unexpected_keyword (keyword : string) : exn :=
  TypeError ("suppress_exceptions() got an unexpected keyword argument '"
             +:+ keyword +:+ "'").

(** What a call of [suppress_exceptions] gives: the wrapper, or
    [functools.partial(suppress_exceptions, **keywords)]. *)
Inductive decorated : Type :=
  | Wrapper (f : A -> Py Logged (option R))
  | PartialDecorator (keywords : list (string * bool)).

(** [suppress_exceptions(target=None, *, log=True)], called with an optional
    positional target and keyword arguments. Python rejects a keyword the
    signature does not declare before the body runs. *)
Definition suppress_exceptions (target : option (A -> Py Logged R))
    (kwargs : list (string * bool)) : outcome decorated :=
  match List.find (fun kv => negb (bool_decide (kv.1 = "log"))) kwargs with
  | Some (keyword, _) => Raise (unexpected_keyword keyword)
  | None =>
      let log := default true (snd <$> head kwargs) in
      match target with
      | None => Return (PartialDecorator [("print_exc", log)])
      | Some target => Return (Wrapper (suppress_wrapped target))
      end
  end.

(** Calling the partial object on the function to decorate:
    [partial(suppress_exceptions, **keywords)(target)]. *)
Definition call_partial (keywords : list (string * bool))
    (target : A -> Py Logged R) : outcome decorated :=
  suppress_exceptions (Some target) keywords.

(** [@suppress_exceptions(log=b)] above a function definition: the
    decorator expression is evaluated, then called on the function. *)
Definition decorate_with_log (b : bool) (target : A -> Py Logged R)
    : outcome decorated :=
  match suppress_exceptions None [("log", b)] with
  | Return (PartialDecorator keywords) => call_partial keywords target
  | Return (Wrapper f) => Return (Wrapper f)
  | Raise e => Raise e
  end.

End SuppressExceptions.

(** *** Memoization *)

Section Memoize.

Context {Args Kwargs R S : Type}.

(** [str(args)] and [str(kwargs)] *)
Variable str_args : Args -> string.
Variable str_kwargs : Kwargs -> string.

(** The dictionary [obj.cache] and the rest of the world. *)
Record MemoWorld : Type := {
  cache : gmap string R;
  memo_state : S
}.

Definition set_cache (f : gmap string R -> gmap string R) (w : MemoWorld)
    : MemoWorld :=
  {| cache := f (cache w); memo_state := memo_state w |}.

Variable obj : Args -> Kwargs -> Py MemoWorld R.

Definition memo_key (args : Args) (kwargs : Kwargs) : string :=
  str_args args +:+ str_kwargs kwargs.

(** [cache[key]] *)
Definition cache_getitem (key : string) : Py MemoWorld R :=
  fun w =>
    match cache w !! key with
    | Some v => (Return v, w)
    | None => (Raise KeyError, w)
    end.

Definition memoizer (args : Args) (kwargs : Kwargs) : Py MemoWorld R :=
  let key := memo_key args kwargs in
  (fun w =>
     if decide (cache w !! key = None)
     then (let* v := obj args kwargs in modify (set_cache (insert key v))) w
     else ret tt w) >>
  cache_getitem key.

(** A run of calls of the memoized callable, one after the other. *)
Fixpoint memo_calls (calls : list (Args * Kwargs)) (w : MemoWorld) : MemoWorld :=
  match calls with
  | [] => w
  | (args, kwargs) :: rest => memo_calls rest (memoizer args kwargs w).2
  end.

End Memoize.

(** *** Runtime type checking *)

Section Typechecked.

Context {Val Ty R W : Type}.

(** [isinstance(value, cls)] *)
Variable isinstance : Val -> Ty -> bool.

(** An entry of [__annotations__]: a class, or any other object. *)
Inductive annotation : Type :=
  | AnnType (t : Ty)
  | AnnOther.

(** What the wrapper reads from the function: the variable names of its
    code object (parameters first), its annotations, and the call itself. *)
Record function : Type := {
  co_varnames : list string;
  __annotations__ : gmap string annotation;
  __call__ : list Val -> gmap string Val -> Py W R
}.

Definition dquote : string := String (Ascii.ascii_of_nat 34) EmptyString.

Definition incorrect_type (name : string) : exn :=
  TypeError ("Incorrect type for " +:+ dquote +:+ name +:+ dquote).

(** The [for index, name in enumerate(...)] loop, from position [index]. *)
Fixpoint check_arguments (annotations : gmap string annotation)
    (args : list Val) (kwargs : gmap string Val)
    (index : nat) (names : list string) : outcome unit :=
  match names with
  | [] => Return tt
  | name :: rest =>
      let continue :=
        check_arguments annotations args kwargs (S index) rest in
      match annotations !! name with
      | Some (AnnType annotation) =>
          let value :=
            if decide (index < length args)%nat then args !! index
            else kwargs !! name in
          match value with
          | Some value =>
              if isinstance value annotation then continue
              else Raise (incorrect_type name)
          | None => continue
          end
      | _ => continue
      end
  end.

(** The inner function [wrapped] of [typechecked]. *)
Definition typechecked_wrapped (target : function)
    (args : list Val) (kwargs : gmap string Val) : Py W R :=
  let* _ :=
    lift (check_arguments (__annotations__ target) args kwargs 0
            (co_varnames target)) in
  __call__ target args kwargs.

(** The value the loop of the wrapper looks at for the variable name at
    position [index]: the positional argument at that position if there is
    one, else the keyword argument of that name, if any. *)
Definition supplied (args : list Val) (kwargs : gmap string Val)
    (index : nat) (name : string) : option Val :=
  if decide (index < length args)%nat then args !! index else kwargs !! name.

(** The variable name at position [index] carries a class annotation and
    the value the loop looks at for it is not an instance of that class. *)
Definition mismatch (annotations : gmap string annotation) (args : list Val)
    (kwargs : gmap string Val) (index : nat) (name : string) : Prop :=
  exists t v, annotations !! name = Some (AnnType t) /\
              supplied args kwargs index name = Some v /\
              isinstance v t = false.

(** The parameters of a function as its [def] declares them: the
    positional-or-keyword ones, the name of [*args], the keyword-only
    ones, the name of [**kwargs], and the local variables of the body. *)
Record signature : Type := {
  positional : list string;
  var_positional : option string;
  keyword_only : list string;
  var_keyword : option string;
  local_names : list string
}.

(** [code.co_varnames] of a function with that signature: the positional
    parameters, then the keyword-only ones, then the names of [*args] and
    [**kwargs], then the locals. *)
Definition signature_varnames (sig : signature) : list string :=
  positional sig ++ keyword_only sig ++ option_list (var_positional sig) ++
  option_list (var_keyword sig) ++ local_names sig.

(** The argument Python binds to the positional-or-keyword parameter at
    position [index]: the positional argument at that position, else the
    keyword argument of its name. *)
Definition bound_positional (args : list Val) (kwargs : gmap string Val)
    (index : nat) (name : string) : option Val :=
  if decide (index < length args)%nat then args !! index else kwargs !! name.

(** The argument Python binds to a keyword-only parameter: the keyword
    argument of its name. *)
Definition bound_keyword_only (kwargs : gmap string Val) (name : string)
    : option Val :=
  kwargs !! name.

(** The parameter [name] carries a class annotation and the argument bound
    to it is not an instance of that class. *)
Definition violation (sig : signature) (annotations : gmap string annotation)
    (args : list Val) (kwargs : gmap string Val) (name : string) : Prop :=
  exists t v,
    annotations !! name = Some (AnnType t) /\
    isinstance v t = false /\
    ((exists index, positional sig !! index = Some name /\
                    bound_positional args kwargs index name = Some v) \/
     (name ∈ keyword_only sig /\ bound_keyword_only kwargs name = Some v)).

(** Every variable name that carries a class annotation is a
    positional-or-keyword parameter. *)
Definition annotated_are_positional (sig : signature)
    (annotations : gmap string annotation) : Prop :=
  forall index name t,
    signature_varnames sig !! index = Some name ->
    annotations !! name = Some (AnnType t) ->
    (index < length (positional sig))%nat.

End Typechecked.

(** ** More of the decorators *)

(** The option combinations [acquire] accepts: a timeout only in blocking
    mode, no negative timeout other than [-1], and none beyond
    [TIMEOUT_MAX]. *)
Definition valid_acquire_args (blocking : bool) (timeout : Z) : Prop :=
  (blocking = false -> timeout = -1) /\ -1 <= timeout <= TIMEOUT_MAX.

(** ** More of the list layout *)

(** [__go_slot], the slot of the GO button: [self.go()] with the default
    action and step. *)
Definition __go_slot : Py ListLayout unit := go Default 1.

(** The GO button pressed [times] times in a row. *)
Fixpoint go_times (times : nat) : Py ListLayout unit :=
  match times with
  | O => ret tt
  | S times' => __go_slot >> go_times times'
  end.

(** What [go] with the default action leaves in the event log for the cues
    at the given rows, row after row. *)
Fixpoint go_receipts (m : list Cue) (rows : list Z) : list Event :=
  match rows with
  | [] => []
  | row :: rest =>
      match item m row with
      | Some c =>
          CueExecute c (Some Default) :: CueExecutedEmit c :: go_receipts m rest
      | None => go_receipts m rest
      end
  end.

(** The row that follows [row] in a list of [n] cues. *)
Definition next_row (end_list : EndListBehavior) (n row : Z) : Z :=
  match end_list with
  | Restart => (row + 1) mod n
  | Stop => if decide (row + 1 < n) then row + 1 else row
  end.

Fixpoint row_after (end_list : EndListBehavior) (n : Z) (times : nat)
    (row : Z) : Z :=
  match times with
  | O => row
  | S times' => row_after end_list n times' (next_row end_list n row)
  end.

Fixpoint rows_visited (end_list : EndListBehavior) (n : Z) (times : nat)
    (row : Z) : list Z :=
  match times with
  | O => []
  | S times' => row :: rows_visited end_list n times' (next_row end_list n row)
  end.

(** Two layouts over the same show: same cues, same items, same options. *)
Definition same_show (l l' : ListLayout) : Prop :=
  _model_adapter l' = _model_adapter l /\
  topLevelItems (listView l') = topLevelItems (listView l) /\
  _auto_continue l' = _auto_continue l /\
  _end_list l' = _end_list l.

(** The current row is a position of the list, or [-1] for no selection. *)
Definition selection_ok (l : ListLayout) : Prop :=
  view_synced l /\
  (current_index l = -1 \/ 0 <= current_index l < len (_model_adapter l)).

(** [EndListBehavior.Stop.value] and [EndListBehavior.Restart.value] *)
Definition EndListBehavior_value (b : EndListBehavior) : string :=
  match b with
  | Stop => "Stop"
  | Restart => "Restart"
  end.

(** [EndListBehavior(value)]: the member with that value; Python's [Enum]
    raises [ValueError] for any other value. *)
Definition EndListBehavior_of_value (value : string) : outcome EndListBehavior :=
  if decide (value = "Stop") then Return Stop
  else if decide (value = "Restart") then Return Restart
  else Raise (ValueError ("'" +:+ value +:+ "' is not a valid EndListBehavior")).

Definition is_ValueError (e : exn) : bool :=
  match e with
  | ValueError _ => true
  | _ => false
  end.

(** [section[key]] on a section of the configuration; a missing option
    raises [KeyError]. *)
Definition config_getitem (section : gmap string string) (key : string)
    : outcome string :=
  match section !! key with
  | Some value => Return value
  | None => Raise KeyError
  end.

(** The [try ... except ValueError] of [ListLayout.__init__] that sets
    [self._end_list] from [config['ListLayout']]. *)
Definition init_end_list (config_ListLayout : gmap string string)
    : outcome EndListBehavior :=
  (try_except
     (let* value := lift (config_getitem config_ListLayout "EndList") in
      lift (EndListBehavior_of_value value))
     is_ValueError
     (fun _ => ret Stop) tt).1.

(** *** Selecting cues *)

(** A top-level item of the list view: its cue and its [selected] flag. *)
Record CueListItem : Type := { cue : Cue; selected : bool }.

Definition set_selected (value : bool) (it : CueListItem) : CueListItem :=
  {| cue := cue it; selected := value |}.

Section Selection.

Context {CueClass : Type}.

(** [isinstance(cue, cue_class)] *)
Variable isinstance_cue : Cue -> CueClass -> bool.

(** [self.model_adapter.item(index)], of [CueTreeModel]. *)
Variable model_item : list Cue -> Z -> outcome Cue.

(** The loop of [get_selected_cues] over the top-level items, in order. *)
Fixpoint get_selected_cues (cue_class : CueClass) (items : list CueListItem)
    : list Cue :=
  match items with
  | [] => []
  | it :: rest =>
      if selected it && isinstance_cue (cue it) cue_class
      then cue it :: get_selected_cues cue_class rest
      else get_selected_cues cue_class rest
  end.

(** The loop shared by [select_all] ([value = True]) and [deselect_all]
    ([value = False]), over the given indexes; the state is the list of
    top-level items. *)
Fixpoint selection_loop (value : bool) (cue_class : CueClass)
    (model : list Cue) (indexes : list nat) : Py (list CueListItem) unit :=
  match indexes with
  | [] => ret tt
  | index :: rest =>
      let* c := lift (model_item model (Z.of_nat index)) in
      (if isinstance_cue c cue_class
       then modify (alter (set_selected value) index)
       else ret tt) >>
      selection_loop value cue_class model rest
  end.

Definition select_all (cue_class : CueClass) (model : list Cue)
    : Py (list CueListItem) unit :=
  fun items =>
    selection_loop true cue_class model (seq 0 (length items)) items.

Definition deselect_all (cue_class : CueClass) (model : list Cue)
    : Py (list CueListItem) unit :=
  fun items =>
    selection_loop false cue_class model (seq 0 (length items)) items.

Definition invert_selection (items : list CueListItem) : list CueListItem :=
  (fun it => set_selected (negb (selected it)) it) <$> items.

(** An item after [select_all] or [deselect_all] for [cue_class]: its flag
    is [value] if its cue is of the class, and as before otherwise. *)
Definition select_class (value : bool) (cue_class : CueClass)
    (it : CueListItem) : CueListItem :=
  if isinstance_cue (cue it) cue_class then set_selected value it else it.

End Selection.

(** ** Concrete shows and callables

    The inputs of the worked examples further down. *)

Definition cue_a : Cue := {| cue_id := 1; index := 0 |}.
Definition cue_b : Cue := {| cue_id := 2; index := 1 |}.
Definition cue_c : Cue := {| cue_id := 3; index := 2 |}.

(** A freshly built layout over [cues], with the given current row. *)
Definition show (cues : list Cue) (row : Z) (auto_continue : bool)
    (end_list : EndListBehavior) : ListLayout :=
  {| _model_adapter := cues;
     listView := {| topLevelItems := cues; currentRow := row |};
     _auto_continue := auto_continue;
     _end_list := end_list;
     events := [] |}.

(** A body that does nothing but raise. *)
Definition always_raises {A R W : Type} (_ : A) : Py W R :=
  raise (ValueError "bad").

(** Python values and classes for the type-check example [fn(a: int)]. *)
Inductive PyVal : Type :=
  | VInt (z : Z)
  | VStr (s : string).

Inductive PyClass : Type := PyInt | PyStr.

Definition isinstance_val (v : PyVal) (c : PyClass) : bool :=
  match v, c with
  | VInt _, PyInt => true
  | VStr _, PyStr => true
  | _, _ => false
  end.

(** [def fn(a: int)]: the world counts the runs of the body. *)
Definition fn_a_int : @function PyVal PyClass unit nat :=
  {| co_varnames := ["a"];
     __annotations__ := {["a" := AnnType PyInt]};
     __call__ := fun _ _ runs => (Return tt, S runs) |}.

Fixpoint join_with (sep : string) (l : list string) : string :=
  match l with
  | [] => EmptyString
  | [x] => x
  | x :: rest => x +:+ sep +:+ join_with sep rest
  end.

(** [str] of a tuple of integers and of a dictionary of integers. *)
Definition str_tuple (l : list Z) : string :=
  match l with
  | [x] => "(" +:+ pretty x +:+ ",)"
  | _ => "(" +:+ join_with ", " (pretty <$> l) +:+ ")"
  end.

Definition str_dict (d : list (string * Z)) : string :=
  "{" +:+ join_with ", " ((fun kv => "'" +:+ kv.1 +:+ "': " +:+ pretty kv.2) <$> d)
      +:+ "}".

(** A body for [memoize]: the sum of the positional arguments; the world
    counts the runs of the body. *)
Definition sum_body (args : list Z) (kwargs : list (string * Z))
    : Py (@MemoWorld Z nat) Z :=
  fun w =>
    (Return (foldr Z.add 0 args),
     {| cache := cache w; memo_state := S (memo_state w) |}).

Definition memo_start : @MemoWorld Z nat := {| cache := ∅; memo_state := O |}.

(** Bodies for the lock decorators that count their runs and then raise. *)
Definition raising_function (_ : unit) : Py (@FunWorld nat) unit :=
  fun w =>
    (Raise (UserError "boom"),
     {| __lock__ := __lock__ w; fun_state := S (fun_state w) |}).

Definition raising_method (_ : unit) : Py (@MethWorld nat) unit :=
  fun w =>
    (Raise (UserError "boom"),
     {| _synchronized_meta_lock := _synchronized_meta_lock w;
        self_attrs := self_attrs w;
        lock_objects := lock_objects w;
        meth_state := S (meth_state w) |}).

(** A method body that deletes every lock attribute of its object and
    returns. *)
Definition forgetful_method (_ : unit) : Py (@MethWorld nat) unit :=
  fun w =>
    (Return tt,
     {| _synchronized_meta_lock := _synchronized_meta_lock w;
        self_attrs := ∅;
        lock_objects := lock_objects w;
        meth_state := S (meth_state w) |}).

(** A function body that counts its runs and returns. *)
Definition counting_function (_ : unit) : Py (@FunWorld nat) unit :=
  fun w =>
    (Return tt, {| __lock__ := __lock__ w; fun_state := S (fun_state w) |}).

(** Cue classes for the selection examples: every cue is a [Cue]; the cues
    with an even identity stand for the media cues. *)
Inductive CueKind : Type := AnyCue | MediaCueKind.

Definition isinstance_kind (c : Cue) (k : CueKind) : bool :=
  match k with
  | AnyCue => true
  | MediaCueKind => Nat.even (cue_id c)
  end.

(** The three cues in the view, the first one selected. *)
Definition items_abc : list CueListItem :=
  [ {| cue := cue_a; selected := true |};
    {| cue := cue_b; selected := false |};
    {| cue := cue_c; selected := false |} ].

(** A body for [memoize] that counts its runs and raises. *)
Definition failing_body (args : list Z) (kwargs : list (string * Z))
    : Py (@MemoWorld Z nat) Z :=
  fun w =>
    (Raise (ValueError "bad"),
     {| cache := cache w; memo_state := S (memo_state w) |}).

(** [def fn2(a: int, b: str)] *)
Definition fn_a_int_b_str : @function PyVal PyClass unit nat :=
  {| co_varnames := ["a"; "b"];
     __annotations__ := {["a" := AnnType PyInt; "b" := AnnType PyStr]};
     __call__ := fun _ _ runs => (Return tt, S runs) |}.

(** An object without lock attributes, the meta lock free. *)
Definition fresh_object : @MethWorld nat :=
  {| _synchronized_meta_lock := false;
     self_attrs := ∅;
     lock_objects := ∅;
     meth_state := O |}.

(** An object whose lock attribute [name] refers to a lock in state [lk]. *)
Definition object_with_lock (name : string) (lk : RLock) : @MethWorld nat :=
  {| _synchronized_meta_lock := false;
     self_attrs := {[name := O]};
     lock_objects := {[O := lk]};
     meth_state := O |}.

(** The signatures of [def fn(a: int)], of [def fn2(a: int, b: str)] and of
    [fn3], which takes [*args] and then a keyword-only [a: int]. *)
Definition sig_a : signature :=
  {| positional := ["a"]; var_positional := None; keyword_only := [];
     var_keyword := None; local_names := [] |}.

Definition sig_a_b : signature :=
  {| positional := ["a"; "b"]; var_positional := None; keyword_only := [];
     var_keyword := None; local_names := [] |}.

Definition sig_star_args_a : signature :=
  {| positional := []; var_positional := Some "args"; keyword_only := ["a"];
     var_keyword := None; local_names := [] |}.

(** [fn3], with [*args] and the keyword-only [a: int]: the world counts
    the runs of the body. *)
Definition fn_star_args_a_int : @function PyVal PyClass unit nat :=
  {| co_varnames := signature_varnames sig_star_args_a;
     __annotations__ := {["a" := AnnType PyInt]};
     __call__ := fun _ _ runs => (Return tt, S runs) |}.

(** Thread [0] has entered the body of a synchronized function, and then
    has called the wrapper again from inside it. *)
Definition fun_entered : @FunThreads nat :=
  fun_set 0%nat [Running tt] (set___lock__ (Locked 0%nat 0) (fun_world (fun_init O)))
    (fun_set 0%nat [Acquiring tt] (fun_world (fun_init O)) (fun_init O)).

Definition fun_reentering : @FunThreads nat :=
  fun_set 0%nat [Acquiring tt; Running tt] (fun_world fun_entered) fun_entered.

(** * Properties *)

(** ** Selecting a cue *)

Lemma len_nonneg (m : list Cue) : 0 <= len m.
Proof. unfold len. lia. Qed.

Lemma len_zero_nil (m : list Cue) : len m = 0 -> m = [].
Proof. unfold len. destruct m; [done | simpl; lia]. Qed.

Lemma synced_count (l : ListLayout) :
  view_synced l -> topLevelItemCount (listView l) = len (_model_adapter l).
Proof. unfold view_synced, topLevelItemCount, len. by intros ->. Qed.

Lemma item_Some_range (m : list Cue) (i : Z) (c : Cue) :
  item m i = Some c -> 0 <= i < len m.
Proof.
  unfold item, len. case_decide; [| done].
  intros Hl%lookup_lt_Some. lia.
Qed.

Lemma item_None_range (m : list Cue) (i : Z) :
  item m i = None <-> ~ (0 <= i < len m).
Proof.
  unfold item, len. case_decide.
  - rewrite lookup_ge_None. lia.
  - split; [lia | done].
Qed.

(** Under [Stop] the index is used as given. *)
Lemma set_current_index_stop (l : ListLayout) (index : Z) :
  _end_list l = Stop ->
  set_current_index index l =
    if decide (0 <= index < topLevelItemCount (listView l))
    then (Return tt, setCurrentItem index l)
    else (Return tt, l).
Proof.
  intros Hs. unfold set_current_index. rewrite Hs.
  rewrite decide_False by done.
  unfold bind, ret, modify. simpl. by case_decide.
Qed.

(** Under [Restart] the index goes through [%] first. *)
Lemma set_current_index_restart (l : ListLayout) (index : Z) :
  _end_list l = Restart ->
  set_current_index index l =
    match py_mod index (len (_model_adapter l)) with
    | Return i =>
        if decide (0 <= i < topLevelItemCount (listView l))
        then (Return tt, setCurrentItem i l)
        else (Return tt, l)
    | Raise e => (Raise e, l)
    end.
Proof.
  intros Hr. unfold set_current_index. rewrite Hr.
  rewrite decide_True by done.
  unfold bind, lift, ret, modify.
  destruct (py_mod _ _); [by case_decide | done].
Qed.

(** [set_current_index] touches nothing but the current row, and the only
    exception it can raise is the zero division on an empty list. *)
Lemma set_current_index_cases (l : ListLayout) (index : Z) :
  (exists i, 0 <= i < topLevelItemCount (listView l) /\
     set_current_index index l = (Return tt, setCurrentItem i l))
  \/ set_current_index index l = (Return tt, l)
  \/ (_end_list l = Restart /\ _model_adapter l = [] /\
      set_current_index index l = (Raise ZeroDivisionError, l)).
Proof.
  destruct (_end_list l) eqn:He.
  - rewrite set_current_index_stop by done. case_decide; eauto.
  - rewrite set_current_index_restart by done. unfold py_mod.
    case_decide as Hz.
    + right; right. eauto using len_zero_nil.
    + case_decide; eauto.
Qed.

(** With the view in step with the model, the range test under [Stop] is a
    test against the length of the cue list. *)
Lemma set_current_index_stop_synced (l : ListLayout) (index : Z) :
  view_synced l ->
  _end_list l = Stop ->
  set_current_index index l =
    if decide (0 <= index < len (_model_adapter l))
    then (Return tt, setCurrentItem index l)
    else (Return tt, l).
Proof.
  intros Hsync Hs.
  by rewrite set_current_index_stop, (synced_count l Hsync).
Qed.

(** Under [Restart] on a non-empty list the range test after the modulo
    always passes. *)
Lemma set_current_index_restart_synced (l : ListLayout) (index : Z) :
  view_synced l ->
  _end_list l = Restart ->
  len (_model_adapter l) <> 0 ->
  set_current_index index l =
    (Return tt, setCurrentItem (index mod len (_model_adapter l)) l).
Proof.
  intros Hsync Hr Hne.
  rewrite set_current_index_restart, (synced_count l Hsync) by done.
  unfold py_mod. rewrite decide_False by done.
  pose proof (len_nonneg (_model_adapter l)).
  rewrite decide_True; [done |].
  apply Z.mod_pos_bound. lia.
Qed.

(** C1: under [Restart], [set_current_index] reduces the index modulo the
    list length (Python's [%], which raises on a zero length) and selects
    the position obtained: that position is the current row afterwards and
    the cue there the current cue; under [Stop], an index outside
    [0, length) leaves the layout as it was and an index inside selects
    that position in the same way. *)
Theorem set_current_index_spec (l : ListLayout) (index : Z) :
  view_synced l ->
  match _end_list l with
  | Restart =>
      match py_mod index (len (_model_adapter l)) with
      | Return i =>
          set_current_index index l = (Return tt, setCurrentItem i l) /\
          current_index (set_current_index index l).2 = i /\
          current_cue (set_current_index index l).2 =
            item (_model_adapter l) i
      | Raise e => set_current_index index l = (Raise e, l)
      end
  | Stop =>
      if decide (0 <= index < len (_model_adapter l))
      then
        set_current_index index l = (Return tt, setCurrentItem index l) /\
        current_index (set_current_index index l).2 = index /\
        current_cue (set_current_index index l).2 =
          item (_model_adapter l) index
      else set_current_index index l = (Return tt, l)
  end.
Proof.
  intros Hsync. destruct (_end_list l) eqn:He.
  - rewrite (set_current_index_stop_synced l index Hsync He).
    by case_decide.
  - unfold py_mod. case_decide as Hz.
    + rewrite (set_current_index_restart l index He).
      unfold py_mod. by rewrite decide_True.
    + by rewrite (set_current_index_restart_synced l index Hsync He Hz).
Qed.

(** C9: with an empty cue list and [Restart], every request raises
    [ZeroDivisionError] (and changes nothing). *)
Theorem set_current_index_empty_restart (l : ListLayout) (index : Z) :
  _end_list l = Restart ->
  _model_adapter l = [] ->
  set_current_index index l = (Raise ZeroDivisionError, l).
Proof.
  intros Hr Hnil. rewrite set_current_index_restart by done.
  by rewrite Hnil.
Qed.

(** C10: with a non-empty cue list and [Restart], every integer request
    selects a position of [0, length), namely [index mod length]; in
    particular [-1] selects the last cue. *)
Theorem set_current_index_restart_in_range (l : ListLayout) (index : Z) :
  view_synced l ->
  _end_list l = Restart ->
  _model_adapter l <> [] ->
  exists l',
    set_current_index index l = (Return tt, l') /\
    l' = setCurrentItem (index mod len (_model_adapter l)) l /\
    0 <= current_index l' < len (_model_adapter l') /\
    (index = -1 -> current_index l' = len (_model_adapter l) - 1).
Proof.
  intros Hsync Hr Hne.
  assert (0 < len (_model_adapter l)) as Hpos.
  { pose proof (len_nonneg (_model_adapter l)).
    destruct (decide (len (_model_adapter l) = 0)) as [E%len_zero_nil|];
      [done | lia]. }
  eexists. split; [apply set_current_index_restart_synced; [done | done | lia] |].
  split; [done |]. simpl. split.
  - by apply Z.mod_pos_bound.
  - intros ->. unfold current_index. simpl.
    rewrite <- (Z.mod_unique_pos _ _ (-1) (len (_model_adapter l) - 1)); lia.
Qed.

(** ** Go *)

Lemma emit_view_synced (e : Event) (l : ListLayout) :
  view_synced l -> view_synced (emit e l).
Proof. done. Qed.

Lemma current_cue_emit (e : Event) (l : ListLayout) :
  current_cue (emit e l) = current_cue l.
Proof. done. Qed.

(** Where a cue is found, [set_current_index] cannot fail. *)
Lemma set_current_index_returns (l : ListLayout) (index : Z) :
  _model_adapter l <> [] ->
  exists l', set_current_index index l = (Return tt, l') /\
             events l' = events l /\
             _model_adapter l' = _model_adapter l.
Proof.
  intros Hne.
  destruct (set_current_index_cases l index) as [(i & _ & ->)|[->|(_ & Hnil & _)]];
    [eauto | eauto | done].
Qed.


(** ** A cue has finished *)

Section CueNextProperties.

Variable get : list Cue -> Z -> outcome Cue.

(** Inside the list the lookup gives the cue at that position; outside, it
    fails with an index or key error. *)
Hypothesis get_hit :
  forall m i c, item m i = Some c -> get m i = Return c.
Hypothesis get_miss :
  forall m i, item m i = None ->
    exists e, get m i = Raise e /\ is_lookup_error e = true.

Lemma cue_next_lookup_error (l : ListLayout) (cue : Cue) (e : exn) :
  get (_model_adapter l) (index cue + 1) = Raise e ->
  is_lookup_error e = true ->
  __cue_next get cue l = (Return tt, l).
Proof.
  intros Hget He. unfold __cue_next, try_except. cbn zeta.
  case_decide; [| done].
  unfold bind, lift. rewrite Hget. by rewrite He.
Qed.

Lemma cue_next_no_successor (l : ListLayout) (cue : Cue) :
  item (_model_adapter l) (index cue + 1) = None ->
  __cue_next get cue l = (Return tt, l).
Proof.
  intros Hnone. destruct (get_miss _ _ Hnone) as (e & Hget & He).
  by apply (cue_next_lookup_error l cue e).
Qed.

(** C2, amended: when the cue at index [i] signals "next" and [i+1] is
    inside the list, the cue at [i+1] is executed; if moreover
    auto-continue is on and that cue is the current one, the selection goes
    through [set_current_index (i+2)]: it becomes [i+2] when [i+2] is inside
    the list, and otherwise stays where it was under [Stop] and becomes
    [(i+2) mod length] under [Restart]. When [i+1] is outside the list, or
    the lookup raises an index or key error, nothing happens. No exception
    escapes in any case. *)
Theorem cue_next_spec (l : ListLayout) (cue : Cue) :
  view_synced l ->
  let next_index := index cue + 1 in
  match item (_model_adapter l) next_index with
  | Some next_cue =>
      let l1 := emit (CueExecute next_cue None) l in
      if _auto_continue l && bool_decide (Some next_cue = current_cue l)
      then
        __cue_next get cue l =
          (Return tt,
           if decide (next_index + 1 < len (_model_adapter l))
           then setCurrentItem (next_index + 1) l1
           else match _end_list l with
                | Stop => l1
                | Restart =>
                    setCurrentItem ((next_index + 1) mod len (_model_adapter l)) l1
                end) /\
        __cue_next get cue l = set_current_index (next_index + 1) l1
      else __cue_next get cue l = (Return tt, l1)
  | None => __cue_next get cue l = (Return tt, l)
  end /\
  (forall e, get (_model_adapter l) next_index = Raise e ->
             is_lookup_error e = true ->
             __cue_next get cue l = (Return tt, l)) /\
  (exists l', __cue_next get cue l = (Return tt, l')).
Proof.
  intros Hsync next_index.
  assert (match item (_model_adapter l) next_index with
          | Some next_cue =>
              let l1 := emit (CueExecute next_cue None) l in
              if _auto_continue l && bool_decide (Some next_cue = current_cue l)
              then
                __cue_next get cue l =
                  (Return tt,
                   if decide (next_index + 1 < len (_model_adapter l))
                   then setCurrentItem (next_index + 1) l1
                   else match _end_list l with
                        | Stop => l1
                        | Restart =>
                            setCurrentItem
                              ((next_index + 1) mod len (_model_adapter l)) l1
                        end) /\
                __cue_next get cue l = set_current_index (next_index + 1) l1
              else __cue_next get cue l = (Return tt, l1)
          | None => __cue_next get cue l = (Return tt, l)
          end) as Hmain.
  { destruct (item (_model_adapter l) next_index) as [next_cue|] eqn:Hitem;
      [| by apply cue_next_no_successor].
    pose proof (item_Some_range _ _ _ Hitem) as Hrange.
    cbn zeta.
    assert (__cue_next get cue l =
            if _auto_continue l && bool_decide (Some next_cue = current_cue l)
            then try_except
                   (set_current_index (next_index + 1))
                   is_lookup_error (fun _ => ret tt)
                   (emit (CueExecute next_cue None) l)
            else (Return tt, emit (CueExecute next_cue None) l)) as ->.
    { unfold __cue_next, try_except at 1. cbn zeta. fold next_index.
      rewrite decide_True by lia.
      unfold bind, lift, modify. rewrite (get_hit _ _ _ Hitem).
      cbn [_auto_continue emit]. rewrite current_cue_emit.
      by destruct (_auto_continue l && bool_decide _). }
    destruct (_auto_continue l && bool_decide _); [| done].
    set (l1 := emit (CueExecute next_cue None) l).
    pose proof (emit_view_synced (CueExecute next_cue None) l Hsync) as Hsync1.
    fold l1 in Hsync1. unfold try_except.
    destruct (_end_list l) eqn:He.
    - rewrite (set_current_index_stop_synced l1 _ Hsync1 He).
      change (_model_adapter l1) with (_model_adapter l).
      destruct (decide (0 <= next_index + 1 < len (_model_adapter l))).
      + by rewrite decide_True by lia.
      + by rewrite decide_False by lia.
    - rewrite (set_current_index_restart_synced l1 _ Hsync1 He)
        by (change (_model_adapter l1) with (_model_adapter l); lia).
      change (_model_adapter l1) with (_model_adapter l).
      split; [| done].
      case_decide; [| done].
      by rewrite Z.mod_small by lia. }
  split; [exact Hmain |]. split; [apply cue_next_lookup_error |].
  destruct (item (_model_adapter l) next_index); [| eauto].
  cbn zeta in Hmain.
  destruct (_auto_continue l && bool_decide _); [| eauto].
  destruct Hmain as [-> _]. eauto.
Qed.

End CueNextProperties.

(** ** Runtime type checking *)

Section TypecheckedProperties.

Context {Val Ty R W : Type}.
Variable isinstance : Val -> Ty -> bool.

(** The loop stops at the first parameter whose supplied value has the
    wrong class, and only there. *)
Lemma check_arguments_first_mismatch (annotations : gmap string (@annotation Ty))
    (args : list Val) (kwargs : gmap string Val) (names : list string) :
  forall index : nat,
    match check_arguments isinstance annotations args kwargs index names with
    | Return _ =>
        forall j name, names !! j = Some name ->
          ~ mismatch isinstance annotations args kwargs (index + j) name
    | Raise e =>
        exists j name,
          names !! j = Some name /\
          mismatch isinstance annotations args kwargs (index + j) name /\
          e = incorrect_type name /\
          forall j' name', (j' < j)%nat -> names !! j' = Some name' ->
            ~ mismatch isinstance annotations args kwargs (index + j') name'
    end.
Proof.
  induction names as [|name rest IH]; intros index; simpl.
  - intros j name' Hj. by rewrite lookup_nil in Hj.
  - assert (~ mismatch isinstance annotations args kwargs (index + 0) name ->
            match check_arguments isinstance annotations args kwargs (S index) rest with
            | Return _ =>
                forall j name', (name :: rest) !! j = Some name' ->
                  ~ mismatch isinstance annotations args kwargs (index + j) name'
            | Raise e =>
                exists j name',
                  (name :: rest) !! j = Some name' /\
                  mismatch isinstance annotations args kwargs (index + j) name' /\
                  e = incorrect_type name' /\
                  forall j' name'', (j' < j)%nat ->
                    (name :: rest) !! j' = Some name'' ->
                    ~ mismatch isinstance annotations args kwargs (index + j') name''
            end) as Hcontinue.
    { intros Hok. specialize (IH (S index)).
      destruct (check_arguments isinstance annotations args kwargs (S index) rest).
      - intros [|j] name' Hj.
        + simpl in Hj. by simplify_eq.
        + simpl in Hj. replace (index + S j)%nat with (S index + j)%nat by lia.
          by apply IH.
      - destruct IH as (j & name' & Hj & Hm & -> & Hfirst).
        exists (S j), name'. split; [done |].
        replace (index + S j)%nat with (S index + j)%nat by lia.
        split; [done |]. split; [done |].
        intros [|j'] name'' Hlt Hj'.
        + simpl in Hj'. by simplify_eq.
        + simpl in Hj'. replace (index + S j')%nat with (S index + j')%nat by lia.
          apply Hfirst; [lia | done]. }
    destruct (annotations !! name) as [[t|]|] eqn:Hann.
    + fold (supplied args kwargs index name).
      destruct (supplied args kwargs index name) as [v|] eqn:Hv.
      * destruct (isinstance v t) eqn:Hinst.
        -- apply Hcontinue. rewrite Nat.add_0_r.
           intros (t' & v' & Ht' & Hv' & Hno). congruence.
        -- exists 0%nat, name. split; [done |]. split.
           ++ rewrite Nat.add_0_r. by exists t, v.
           ++ split; [done |]. intros j' ? Hlt. lia.
      * apply Hcontinue. rewrite Nat.add_0_r.
        intros (t' & v' & _ & Hv' & _). congruence.
    + apply Hcontinue. intros (t' & v' & Ht' & _). congruence.
    + apply Hcontinue. intros (t' & v' & Ht' & _). congruence.
Qed.

Lemma signature_varnames_positional (sig : signature) (index : nat)
    (name : string) :
  positional sig !! index = Some name ->
  signature_varnames sig !! index = Some name.
Proof. intros Hp. unfold signature_varnames. by apply lookup_app_l_Some. Qed.

Lemma signature_varnames_keyword_only (sig : signature) (name : string) :
  name ∈ keyword_only sig ->
  exists index,
    signature_varnames sig !! index = Some name /\
    (length (positional sig) <= index)%nat.
Proof.
  intros [j Hj]%list_elem_of_lookup.
  exists (length (positional sig) + j)%nat. split; [| lia].
  unfold signature_varnames. rewrite lookup_app_r by lia.
  replace (length (positional sig) + j - length (positional sig))%nat
    with j by lia.
  by apply lookup_app_l_Some.
Qed.

(** Where every class-annotated name is a positional-or-keyword parameter,
    the value the loop looks at is the argument Python binds. *)
Lemma violation_iff_mismatch (sig : signature)
    (annotations : gmap string (@annotation Ty))
    (args : list Val) (kwargs : gmap string Val) (name : string) :
  annotated_are_positional sig annotations ->
  violation isinstance sig annotations args kwargs name <->
  exists index,
    signature_varnames sig !! index = Some name /\
    mismatch isinstance annotations args kwargs index name.
Proof.
  intros Hpos. split.
  - intros (t & v & Ht & Hno & [(index & Hname & Hv)|[Hkw Hv]]).
    + exists index. split; [by apply signature_varnames_positional |].
      by exists t, v.
    + destruct (signature_varnames_keyword_only sig name Hkw)
        as (index & Hname & Hge).
      pose proof (Hpos index name t Hname Ht). lia.
  - intros (index & Hname & t & v & Ht & Hv & Hno).
    pose proof (Hpos index name t Hname Ht) as Hlt.
    exists t, v. split; [done |]. split; [done |]. left.
    exists index. split; [| done].
    unfold signature_varnames in Hname. by rewrite lookup_app_l in Hname.
Qed.

(** X21: for a callable whose class-annotated parameters are all
    positional-or-keyword parameters, if the argument bound to some
    annotated parameter, by position or by keyword, is not an instance of
    its class, the wrapper raises the type error of such a parameter and
    the body does not run (the world is left as it was); if there is none
    -- parameters without a class annotation and parameters without an
    argument never count -- the wrapper is the call of the body and gives
    its result. *)
Theorem typechecked_spec (sig : signature) (target : @function Val Ty R W)
    (args : list Val) (kwargs : gmap string Val) (w : W) :
  co_varnames target = signature_varnames sig ->
  annotated_are_positional sig (__annotations__ target) ->
  ((exists name,
      violation isinstance sig (__annotations__ target) args kwargs name) ->
   exists name,
     violation isinstance sig (__annotations__ target) args kwargs name /\
     typechecked_wrapped isinstance target args kwargs w =
       (Raise (incorrect_type name), w)) /\
  ((forall name,
      ~ violation isinstance sig (__annotations__ target) args kwargs name) ->
   typechecked_wrapped isinstance target args kwargs w =
     __call__ target args kwargs w).
Proof.
  intros Hnames Hpos.
  pose proof (check_arguments_first_mismatch (__annotations__ target) args
                kwargs (co_varnames target) 0) as Hloop.
  unfold typechecked_wrapped, bind, lift.
  destruct (check_arguments _ _ _ _ _ _) as [[]|e]; simpl in Hloop.
  - split; [| done]. intros (name & Hv).
    apply (violation_iff_mismatch sig _ _ _ _ Hpos) in Hv
      as (index & Hname & Hm).
    rewrite <- Hnames in Hname. by destruct (Hloop index name Hname).
  - destruct Hloop as (j & name & Hname & Hm & -> & _).
    rewrite Hnames in Hname.
    assert (violation isinstance sig (__annotations__ target) args kwargs name)
      as Hv.
    { apply (violation_iff_mismatch sig _ _ _ _ Hpos). by exists j. }
    split.
    + intros _. by exists name.
    + intros Hnone. by destruct (Hnone name).
Qed.

End TypecheckedProperties.

(** ** Memoization *)

Section MemoizeProperties.

Context {Args Kwargs R S : Type}.
Variable str_args : Args -> string.
Variable str_kwargs : Kwargs -> string.
Variable obj : Args -> Kwargs -> Py (@MemoWorld R S) R.

Local Abbreviation key_of := (memo_key str_args str_kwargs).
Local Abbreviation memoized := (memoizer str_args str_kwargs obj).

(** The body may add entries to the cache (a recursive memoized function
    does), but it never removes or changes one. *)
Hypothesis obj_keeps_entries :
  forall args kwargs w, cache w ⊆ cache (obj args kwargs w).2.

Lemma memoizer_hit (args : Args) (kwargs : Kwargs) (w : MemoWorld) (v : R) :
  cache w !! key_of args kwargs = Some v ->
  memoized args kwargs w = (Return v, w).
Proof.
  intros Hin. unfold memoizer, bind, cache_getitem.
  rewrite decide_False by congruence.
  unfold ret. by rewrite Hin.
Qed.

Lemma memoizer_miss (args : Args) (kwargs : Kwargs) (w : MemoWorld) :
  cache w !! key_of args kwargs = None ->
  memoized args kwargs w =
    match obj args kwargs w with
    | (Return v, w') =>
        (Return v, set_cache (insert (key_of args kwargs) v) w')
    | (Raise e, w') => (Raise e, w')
    end.
Proof.
  intros Hout. unfold memoizer, bind, cache_getitem.
  rewrite decide_True by done.
  destruct (obj args kwargs w) as [[v|e] w']; [| done].
  unfold modify. simpl. by rewrite lookup_insert_eq.
Qed.

Lemma memoizer_keeps_entries (args : Args) (kwargs : Kwargs) (w : MemoWorld) :
  cache w ⊆ cache (memoized args kwargs w).2.
Proof.
  destruct (cache w !! key_of args kwargs) as [v|] eqn:Hk.
  - by rewrite (memoizer_hit _ _ _ _ Hk).
  - rewrite (memoizer_miss _ _ _ Hk).
    pose proof (obj_keeps_entries args kwargs w) as Hobj.
    destruct (obj args kwargs w) as [[v|e] w']; simpl in *; [| done].
    apply map_subseteq_spec. intros k x Hkx.
    destruct (decide (k = key_of args kwargs)) as [->|Hne]; [congruence |].
    rewrite lookup_insert_ne by done.
    by apply (lookup_weaken _ _ _ _ Hkx).
Qed.

Lemma memo_calls_keeps_entries (calls : list (Args * Kwargs)) (w : MemoWorld) :
  cache w ⊆ cache (memo_calls str_args str_kwargs obj calls w).
Proof.
  revert w. induction calls as [|[args kwargs] rest IH]; intros w; simpl.
  - done.
  - etrans; [apply (memoizer_keeps_entries args kwargs) | apply IH].
Qed.

(** A call that returns leaves its result in the cache under its key. *)
Lemma memoizer_result_cached (args : Args) (kwargs : Kwargs)
    (w w1 : MemoWorld) (v : R) :
  memoized args kwargs w = (Return v, w1) ->
  cache w1 !! key_of args kwargs = Some v.
Proof.
  destruct (cache w !! key_of args kwargs) as [v0|] eqn:Hk.
  - rewrite (memoizer_hit _ _ _ _ Hk). congruence.
  - rewrite (memoizer_miss _ _ _ Hk).
    destruct (obj args kwargs w) as [[v0|e] w']; [| done].
    intros [= <- <-]. simpl. apply lookup_insert_eq.
Qed.

(** C5: a call whose textual key is in the cache returns the cached result
    and leaves the world as it is, so the body is not run; in particular
    this is the case after any earlier call with the same text that
    returned, however many calls came in between. A call whose key is not
    in the cache runs the body and stores its result under that key; two
    calls with different texts (as [f(1,2)] then [f(2,1)]) each run the
    body and end up under two keys of the cache. *)
Theorem memoize_spec (args : Args) (kwargs : Kwargs) (w : MemoWorld) :
  (forall v, cache w !! key_of args kwargs = Some v ->
     memoized args kwargs w = (Return v, w)) /\
  (forall args0 kwargs0 w0 w1 v calls,
     key_of args0 kwargs0 = key_of args kwargs ->
     memoized args0 kwargs0 w0 = (Return v, w1) ->
     w = memo_calls str_args str_kwargs obj calls w1 ->
     memoized args kwargs w = (Return v, w)) /\
  (cache w !! key_of args kwargs = None ->
     memoized args kwargs w =
       match obj args kwargs w with
       | (Return v, w') =>
           (Return v, set_cache (insert (key_of args kwargs) v) w')
       | (Raise e, w') => (Raise e, w')
       end) /\
  (forall args' kwargs' v w1,
     key_of args' kwargs' <> key_of args kwargs ->
     cache w !! key_of args kwargs = None ->
     obj args kwargs w = (Return v, w1) ->
     cache w1 !! key_of args' kwargs' = None ->
     let w1' := set_cache (insert (key_of args kwargs) v) w1 in
     memoized args kwargs w = (Return v, w1') /\
     forall v' w2,
       obj args' kwargs' w1' = (Return v', w2) ->
       let w2' := set_cache (insert (key_of args' kwargs') v') w2 in
       memoized args' kwargs' w1' = (Return v', w2') /\
       cache w2' !! key_of args kwargs = Some v /\
       cache w2' !! key_of args' kwargs' = Some v').
Proof.
  split; [apply memoizer_hit |]. split; [| split; [apply memoizer_miss |]].
  - intros args0 kwargs0 w0 w1 v calls Hkey Hcall ->.
    apply memoizer_hit. rewrite <- Hkey.
    apply (lookup_weaken (cache w1)); [| apply memo_calls_keeps_entries].
    by apply (memoizer_result_cached _ _ w0).
  - intros args' kwargs' v w1 Hne Hout Hobj Hout' w1'.
    split; [by rewrite (memoizer_miss _ _ _ Hout), Hobj |].
    intros v' w2 Hobj' w2'.
    assert (cache w1' !! key_of args' kwargs' = None) as Hmiss.
    { unfold w1'. simpl. by rewrite lookup_insert_ne. }
    split; [by rewrite (memoizer_miss _ _ _ Hmiss), Hobj' |].
    split; [| apply lookup_insert_eq].
    unfold w2'. simpl. rewrite lookup_insert_ne by done.
    apply (lookup_weaken (cache w1')).
    + unfold w1'. simpl. apply lookup_insert_eq.
    + pose proof (obj_keeps_entries args' kwargs' w1') as Hk.
      by rewrite Hobj' in Hk.
Qed.

End MemoizeProperties.

(** ** Exception suppression *)

Section SuppressProperties.

Context {A R W : Type}.
Variable format_exc : exn -> string.

(** Used bare, the decorator does hide every [Exception] of the body. *)
Lemma suppress_wrapped_catches (target : A -> Py (@Logged W) R) (args : A)
    (w w' : Logged) (e : exn) :
  target args w = (Raise e, w') ->
  is_Exception e = true ->
  suppress_wrapped format_exc target args w =
    (Return None,
     logging_warning ("Exception suppressed:" +:+ newline +:+ format_exc e) w').
Proof.
  intros Hraise He. unfold suppress_wrapped, try_except, returning, bind.
  by rewrite Hraise, He.
Qed.

Lemma suppress_wrapped_returns (target : A -> Py (@Logged W) R) (args : A)
    (w w' : Logged) (r : R) :
  target args w = (Return r, w') ->
  suppress_wrapped format_exc target args w = (Return (Some r), w').
Proof.
  intros Hret. unfold suppress_wrapped, try_except, returning, bind.
  by rewrite Hret.
Qed.

(** C7 (fails on the code): giving the logging option by keyword,
    [@suppress_exceptions(log=b)], does not yield a wrapper at all: the
    partial object passes the option on under the name [print_exc], which
    the decorator does not accept, so decorating raises a type error. And
    where the option does reach the decorator, [log=False] next to the
    target, the wrapper logs the suppressed exception all the same. *)
Theorem suppress_exceptions_log_keyword (b : bool)
    (target : A -> Py (@Logged W) R) (args : A) (w : Logged) :
  decorate_with_log format_exc b target = Raise (unexpected_keyword "print_exc") /\
  suppress_exceptions format_exc (Some (@always_raises A R (@Logged W)))
    [("log", false)] =
    Return (Wrapper (suppress_wrapped format_exc always_raises)) /\
  suppress_wrapped format_exc (@always_raises A R (@Logged W)) args w =
    (Return None,
     logging_warning
       ("Exception suppressed:" +:+ newline +:+ format_exc (ValueError "bad"))
       w).
Proof. split; [by destruct b |]. split; done. Qed.

End SuppressProperties.

(** ** Re-entrant locking *)

Lemma gives_up_checks (blocking : bool) (timeout : Z) :
  gives_up blocking timeout ->
  (TIMEOUT_MAX <? Z.abs timeout) = false /\
  negb blocking && negb (timeout =? -1) = false /\
  (timeout <? 0) && negb (timeout =? -1) = false /\
  blocking && (timeout =? -1) = false.
Proof.
  intros [[-> ->]|[-> Ht]]; [done |].
  split; [apply Z.ltb_ge; lia |]. split; [done |].
  split.
  - replace (timeout <? 0) with false by (symmetry; apply Z.ltb_ge; lia). done.
  - replace (timeout =? -1) with false by (symmetry; apply Z.eqb_neq; lia). done.
Qed.

Lemma valid_acquire_args_checks (blocking : bool) (timeout : Z) :
  valid_acquire_args blocking timeout ->
  (TIMEOUT_MAX <? Z.abs timeout) = false /\
  negb blocking && negb (timeout =? -1) = false /\
  (timeout <? 0) && negb (timeout =? -1) = false.
Proof.
  intros [Hb Ht].
  assert (1 <= TIMEOUT_MAX) by (unfold TIMEOUT_MAX; lia).
  split; [apply Z.ltb_ge; lia |]. split.
  - destruct blocking; [done |]. rewrite Hb by done. done.
  - destruct (Z.ltb_spec timeout 0); [| done].
    replace timeout with (-1) by lia. done.
Qed.

Lemma RLock_acquire_gives_up (me o : thread) (n : nat) (blocking : bool)
    (timeout : Z) :
  o <> me -> gives_up blocking timeout ->
  RLock_acquire me blocking timeout (Locked o n) =
    Some (Return false, Locked o n).
Proof.
  intros Ho (H1 & H2 & H3 & H4)%gives_up_checks. unfold RLock_acquire.
  rewrite H1, H2, H3, H4. by rewrite decide_False.
Qed.

Lemma RLock_acquire_free (me : thread) (blocking : bool) (timeout : Z) :
  valid_acquire_args blocking timeout ->
  RLock_acquire me blocking timeout Unlocked = Some (Return true, Locked me 0).
Proof.
  intros (H1 & H2 & H3)%valid_acquire_args_checks. unfold RLock_acquire.
  by rewrite H1, H2, H3.
Qed.

Lemma RLock_acquire_held (me : thread) (blocking : bool) (timeout : Z) (n : nat) :
  valid_acquire_args blocking timeout ->
  RLock_acquire me blocking timeout (Locked me n) =
    Some (Return true, Locked me (S n)).
Proof.
  intros (H1 & H2 & H3)%valid_acquire_args_checks. unfold RLock_acquire.
  rewrite H1, H2, H3. by rewrite decide_True.
Qed.

Lemma RLock_acquire_waits (me o : thread) (n : nat) :
  o <> me -> RLock_acquire me true (-1) (Locked o n) = None.
Proof. intros Ho. unfold RLock_acquire. simpl. by rewrite decide_False. Qed.

Lemma RLock_acquire_too_large (me : thread) (blocking : bool) (timeout : Z)
    (lk : RLock) :
  TIMEOUT_MAX < Z.abs timeout ->
  RLock_acquire me blocking timeout lk = Some (Raise OverflowError, lk).
Proof.
  intros Ht. unfold RLock_acquire.
  by replace (TIMEOUT_MAX <? Z.abs timeout) with true
    by (symmetry; by apply Z.ltb_lt).
Qed.

Lemma RLock_release_not_owner (me o : thread) (n : nat) :
  o <> me ->
  RLock_release me (Locked o n) =
    (Raise (RuntimeError "cannot release un-acquired lock"), Locked o n).
Proof. intros Ho. unfold RLock_release. by rewrite decide_False. Qed.

(** Whoever gets the lock owns it afterwards. *)
Lemma RLock_acquire_owner (me : thread) (blocking : bool) (timeout : Z)
    (lk0 lk : RLock) :
  RLock_acquire me blocking timeout lk0 = Some (Return true, lk) ->
  exists n, lk = Locked me n.
Proof.
  unfold RLock_acquire.
  destruct (TIMEOUT_MAX <? Z.abs timeout); [done |].
  destruct (negb blocking && negb (timeout =? -1)); [done |].
  destruct ((timeout <? 0) && negb (timeout =? -1)); [done |].
  destruct lk0 as [|o n].
  - intros [= <-]. eauto.
  - case_decide; [intros [= <-]; eauto |].
    by destruct (blocking && (timeout =? -1)).
Qed.

(** Releasing right after a successful acquire undoes it. *)
Lemma RLock_release_acquire (me : thread) (blocking : bool) (timeout : Z)
    (lk0 lk : RLock) :
  RLock_acquire me blocking timeout lk0 = Some (Return true, lk) ->
  RLock_release me lk = (Return tt, lk0).
Proof.
  unfold RLock_acquire.
  destruct (TIMEOUT_MAX <? Z.abs timeout); [done |].
  destruct (negb blocking && negb (timeout =? -1)); [done |].
  destruct ((timeout <? 0) && negb (timeout =? -1)); [done |].
  destruct lk0 as [|o n].
  - intros [= <-]. simpl. by rewrite decide_True.
  - case_decide as Ho.
    + intros [= <-]. subst o. simpl. by rewrite decide_True.
    + by destruct (blocking && (timeout =? -1)).
Qed.

(** The release of the [finally] clause only ever raises [RuntimeError]. *)
Lemma RLock_release_raises (me : thread) (lk lk' : RLock) (e : exn) :
  RLock_release me lk = (Raise e, lk') -> is_RuntimeError e = true.
Proof.
  unfold RLock_release. destruct lk; [| case_decide]; by intros [= <- _].
Qed.

Section SynchronizedFunctionProperties.

Context {A R St : Type}.
Variable target : A -> Py (@FunWorld St) R.
Variables (blocking : bool) (timeout : Z).

Lemma set___lock___same (w : @FunWorld St) : set___lock__ (__lock__ w) w = w.
Proof. by destruct w. Qed.

Lemma synchronized_gives_up (me o : thread) (n : nat) (args : A) (w : FunWorld) :
  __lock__ w = Locked o n -> o <> me -> gives_up blocking timeout ->
  synchronized target blocking timeout me args w = Some (Return None, w).
Proof.
  intros Hlk Ho Hg. unfold synchronized.
  rewrite Hlk, (RLock_acquire_gives_up _ _ _ _ _ Ho Hg).
  unfold try_finally, try_except, bind, ret. rewrite <- Hlk.
  rewrite set___lock___same, Hlk, (RLock_release_not_owner _ _ _ Ho).
  simpl. by rewrite <- Hlk, set___lock___same.
Qed.

Lemma synchronized_acquired (me : thread) (args : A) (w : FunWorld) (lk : RLock) :
  RLock_acquire me blocking timeout (__lock__ w) = Some (Return true, lk) ->
  synchronized target blocking timeout me args w =
    Some (let (o, w1) := target args (set___lock__ lk w) in
          (outcome_some o,
           set___lock__ (RLock_release me (__lock__ w1)).2 w1)).
Proof.
  intros Hacq. unfold synchronized. rewrite Hacq.
  unfold try_finally, try_except, returning, bind, ret.
  destruct (target args (set___lock__ lk w)) as [[r|e] w1];
    destruct (RLock_release me (__lock__ w1)) as [[[]|e'] lk'] eqn:Hrel;
    simpl; try done.
  all: by rewrite (RLock_release_raises _ _ _ _ Hrel).
Qed.

(** The same, told by what can be seen of the worlds: the lock the body
    starts with, the lock the wrapper ends with, and the state the body
    works on. *)
Lemma synchronized_enters (me : thread) (args : A) (w : FunWorld) (lk : RLock) :
  RLock_acquire me blocking timeout (__lock__ w) = Some (Return true, lk) ->
  exists w0 o w1 w',
    __lock__ w0 = lk /\ fun_state w0 = fun_state w /\
    target args w0 = (o, w1) /\
    synchronized target blocking timeout me args w = Some (outcome_some o, w') /\
    __lock__ w' = (RLock_release me (__lock__ w1)).2 /\
    fun_state w' = fun_state w1 /\
    (__lock__ w1 = lk -> __lock__ w' = __lock__ w).
Proof.
  intros Hacq.
  destruct (target args (set___lock__ lk w)) as [o w1] eqn:Hrun.
  exists (set___lock__ lk w), o, w1,
    (set___lock__ (RLock_release me (__lock__ w1)).2 w1).
  split; [done |]. split; [done |]. split; [done |]. split.
  - rewrite (synchronized_acquired _ _ _ _ Hacq). by rewrite Hrun.
  - split; [done |]. split; [done |].
    intros ->. simpl. by rewrite (RLock_release_acquire _ _ _ _ _ Hacq).
Qed.

End SynchronizedFunctionProperties.

Section SynchronizedMethodProperties.

Context {A R St : Type}.
Variable target : A -> Py (@MethWorld St) R.
Variable target___name__ : string.
Variable lock_name : option string.
Variables (blocking : bool) (timeout : Z).

Local Abbreviation name := (resolved_lock_name target___name__ lock_name).

Lemma set_lock_state_same (w : @MethWorld St) (l : loc) (lk : RLock) :
  lock_objects w !! l = Some lk -> set_lock_state l lk w = w.
Proof.
  intros Hlk. destruct w as [meta attrs objs st].
  unfold set_lock_state. simpl in *. by rewrite insert_id.
Qed.

Lemma lock_state_set_lock_state (w : @MethWorld St) (l l' : loc) (lk : RLock) :
  lock_state l' (set_lock_state l lk w) =
    if decide (l = l') then lk else lock_state l' w.
Proof.
  unfold lock_state, set_lock_state. simpl. case_decide as Hl.
  - subst. by rewrite lookup_insert_eq.
  - by rewrite lookup_insert_ne.
Qed.

(** A new lock is put where no lock object is and no attribute points. *)
Lemma new_object_fresh (w : @MethWorld St) :
  lock_objects w !! new_object w = None /\
  forall other, self_attrs w !! other <> Some (new_object w).
Proof.
  pose proof (is_fresh (dom (lock_objects w) ∪ map_img (self_attrs w)
                          : gset loc)) as Hfresh.
  fold (new_object w) in Hfresh.
  rewrite not_elem_of_union in Hfresh. destruct Hfresh as [Hobj Hattr].
  split.
  - by apply not_elem_of_dom.
  - intros other Hother. apply Hattr. apply elem_of_map_img. eauto.
Qed.

(** The lock found or made is the one the attribute refers to. *)
Lemma get_or_create_lock_attr (nm : string) (w wc : @MethWorld St) (l : loc) :
  get_or_create_lock nm w = (l, wc) ->
  self_attrs wc !! nm = Some l /\
  _synchronized_meta_lock wc = _synchronized_meta_lock w /\
  meth_state wc = meth_state w.
Proof.
  unfold get_or_create_lock.
  destruct (self_attrs w !! nm) as [l0|] eqn:Hattr.
  - by intros [= <- <-].
  - intros [= <- <-]. simpl. by rewrite lookup_insert_eq.
Qed.

Lemma synchronized_method_gives_up (me o : thread) (n : nat) (args : A)
    (w : MethWorld) (l : loc) :
  _synchronized_meta_lock w = false ->
  self_attrs w !! name = Some l ->
  lock_objects w !! l = Some (Locked o n) ->
  o <> me -> gives_up blocking timeout ->
  synchronized_method_wrapped target target___name__ lock_name blocking
    timeout me args w = Some (Return None, w).
Proof.
  intros Hmeta Hattr Hlk Ho Hg.
  unfold synchronized_method_wrapped, get_or_create_lock.
  assert (lock_state l w = Locked o n) as Hof.
  { unfold lock_state. by rewrite Hlk. }
  rewrite Hmeta, Hattr, Hof.
  rewrite (RLock_acquire_gives_up _ _ _ _ _ Ho Hg).
  unfold try_finally, try_except, bind, ret.
  rewrite (set_lock_state_same _ _ _ Hlk), Hof.
  rewrite (RLock_release_not_owner _ _ _ Ho). simpl.
  by rewrite (set_lock_state_same _ _ _ Hlk).
Qed.

Lemma synchronized_method_acquired (me : thread) (args : A)
    (w wc : MethWorld) (l : loc) (lk : RLock) :
  _synchronized_meta_lock w = false ->
  get_or_create_lock name w = (l, wc) ->
  RLock_acquire me blocking timeout (lock_state l wc) = Some (Return true, lk) ->
  synchronized_method_wrapped target target___name__ lock_name blocking
    timeout me args w =
    Some (let (o, w1) := target args (set_lock_state l lk wc) in
          (outcome_some o,
           set_lock_state l (RLock_release me (lock_state l w1)).2 w1)).
Proof.
  intros Hmeta Hget Hacq. unfold synchronized_method_wrapped.
  rewrite Hmeta, Hget, Hacq.
  unfold try_finally, try_except, returning, bind, ret.
  destruct (target args (set_lock_state l lk wc)) as [[r|e] w1];
    destruct (RLock_release me (lock_state l w1)) as [[[]|e'] lk'] eqn:Hrel;
    simpl; try done.
  all: by rewrite (RLock_release_raises _ _ _ _ Hrel).
Qed.

Lemma synchronized_method_waits (me : thread) (args : A)
    (w wc : MethWorld) (l : loc) :
  _synchronized_meta_lock w = false ->
  get_or_create_lock name w = (l, wc) ->
  RLock_acquire me blocking timeout (lock_state l wc) = None ->
  synchronized_method_wrapped target target___name__ lock_name blocking
    timeout me args w = None.
Proof.
  intros Hmeta Hget Hacq. unfold synchronized_method_wrapped.
  by rewrite Hmeta, Hget, Hacq.
Qed.

(** The same, told by what can be seen of the worlds: the attribute, the
    lock the body starts with, the lock the wrapper ends with, and what
    the wrapper leaves alone after the body. *)
Lemma synchronized_method_enters (me : thread) (args : A)
    (w wc : MethWorld) (l : loc) (lk : RLock) :
  _synchronized_meta_lock w = false ->
  get_or_create_lock name w = (l, wc) ->
  RLock_acquire me blocking timeout (lock_state l wc) = Some (Return true, lk) ->
  exists w0 o w1 w',
    (self_attrs w0 !! name = Some l /\ lock_state l w0 = lk /\
     self_attrs w0 = self_attrs wc /\ meth_state w0 = meth_state w /\
     forall l', l' <> l -> lock_state l' w0 = lock_state l' wc) /\
    target args w0 = (o, w1) /\
    synchronized_method_wrapped target target___name__ lock_name blocking
      timeout me args w = Some (outcome_some o, w') /\
    (lock_state l w' = (RLock_release me (lock_state l w1)).2 /\
     self_attrs w' = self_attrs w1 /\ meth_state w' = meth_state w1 /\
     forall l', l' <> l -> lock_state l' w' = lock_state l' w1) /\
    (lock_state l w1 = lk -> lock_state l w' = lock_state l wc).
Proof.
  intros Hmeta Hget Hacq.
  destruct (get_or_create_lock_attr _ _ _ _ Hget) as (Hattr & _ & Hst).
  destruct (target args (set_lock_state l lk wc)) as [o w1] eqn:Hrun.
  exists (set_lock_state l lk wc), o, w1,
    (set_lock_state l (RLock_release me (lock_state l w1)).2 w1).
  split; [| split; [done |]; split; [| split]].
  - split; [done |]. split; [| split; [done |]; split; [done |]].
    + rewrite lock_state_set_lock_state. by rewrite decide_True.
    + intros l' Hne. rewrite lock_state_set_lock_state.
      by rewrite decide_False.
  - rewrite (synchronized_method_acquired _ _ _ _ _ _ Hmeta Hget Hacq).
    by rewrite Hrun.
  - split; [| split; [done |]; split; [done |]].
    + rewrite lock_state_set_lock_state. by rewrite decide_True.
    + intros l' Hne. rewrite lock_state_set_lock_state.
      by rewrite decide_False.
  - intros Hkept. rewrite lock_state_set_lock_state, decide_True by done.
    rewrite Hkept. by rewrite (RLock_release_acquire _ _ _ _ _ Hacq).
Qed.

End SynchronizedMethodProperties.

(** C4: for both lock decorators. When the lock is held by another thread
    and the call is non-blocking or its timeout elapses, the wrapper
    returns [None] and leaves the world untouched: the body is not run and
    nothing is raised, although the release in the [finally] clause raises
    [RuntimeError]. When the lock is acquired, the body runs with the lock
    as acquired, its outcome -- a value or an exception -- is the outcome
    of the wrapper, and on both paths the lock the wrapper leaves behind is
    the lock the body left, released by the caller; whatever the release
    raises is dropped. A body that leaves the lock as it got it leaves it,
    after the release, as it was before the call. The method wrapper
    releases the lock object it found or made at the start, and after the
    body it touches nothing but that object. *)
Theorem synchronized_lock_handling {A R St : Type}
    (ftarget : A -> Py (@FunWorld St) R)
    (mtarget : A -> Py (@MethWorld St) R)
    (target___name__ : string) (lock_name : option string)
    (blocking : bool) (timeout : Z) (me : thread) (args : A) :
  let name := resolved_lock_name target___name__ lock_name in
  (forall (w : FunWorld) o n,
     __lock__ w = Locked o n -> o <> me -> gives_up blocking timeout ->
     synchronized ftarget blocking timeout me args w = Some (Return None, w) /\
     is_RuntimeError_raised (RLock_release me (__lock__ w)).1) /\
  (forall (w : FunWorld) lk,
     RLock_acquire me blocking timeout (__lock__ w) = Some (Return true, lk) ->
     exists w0 o w1 w',
       __lock__ w0 = lk /\ fun_state w0 = fun_state w /\
       ftarget args w0 = (o, w1) /\
       synchronized ftarget blocking timeout me args w =
         Some (outcome_some o, w') /\
       __lock__ w' = (RLock_release me (__lock__ w1)).2 /\
       fun_state w' = fun_state w1 /\
       (__lock__ w1 = lk -> __lock__ w' = __lock__ w)) /\
  (forall (w : MethWorld) l o n,
     _synchronized_meta_lock w = false ->
     self_attrs w !! name = Some l ->
     lock_objects w !! l = Some (Locked o n) ->
     o <> me -> gives_up blocking timeout ->
     synchronized_method_wrapped mtarget target___name__ lock_name blocking
       timeout me args w = Some (Return None, w) /\
     is_RuntimeError_raised (RLock_release me (lock_state l w)).1) /\
  (forall (w wc : MethWorld) l lk,
     _synchronized_meta_lock w = false ->
     get_or_create_lock name w = (l, wc) ->
     RLock_acquire me blocking timeout (lock_state l wc) =
       Some (Return true, lk) ->
     exists w0 o w1 w',
       (self_attrs w0 !! name = Some l /\ lock_state l w0 = lk /\
        self_attrs w0 = self_attrs wc /\ meth_state w0 = meth_state w /\
        forall l', l' <> l -> lock_state l' w0 = lock_state l' wc) /\
       mtarget args w0 = (o, w1) /\
       synchronized_method_wrapped mtarget target___name__ lock_name blocking
         timeout me args w = Some (outcome_some o, w') /\
       (lock_state l w' = (RLock_release me (lock_state l w1)).2 /\
        self_attrs w' = self_attrs w1 /\ meth_state w' = meth_state w1 /\
        forall l', l' <> l -> lock_state l' w' = lock_state l' w1) /\
       (lock_state l w1 = lk -> lock_state l w' = lock_state l wc)).
Proof.
  intros name. split; [| split; [| split]].
  - intros w o n Hlk Ho Hg. split; [by eapply synchronized_gives_up |].
    by rewrite Hlk, (RLock_release_not_owner _ _ _ Ho).
  - intros w lk Hacq. by apply synchronized_enters.
  - intros w l o n Hmeta Hattr Hlk Ho Hg.
    split; [by eapply synchronized_method_gives_up |].
    assert (lock_state l w = Locked o n) as ->.
    { unfold lock_state. by rewrite Hlk. }
    by rewrite (RLock_release_not_owner _ _ _ Ho).
  - intros w wc l lk Hmeta Hget Hacq.
    by apply synchronized_method_enters.
Qed.

(** ** Threads on one synchronized callable *)

Section Serialization.

Local Open Scope nat_scope.

(** What a successful blocking acquire does to the number of times each
    thread holds the lock. *)
Lemma holds_acquire (t t' : thread) (lk lk' : RLock) :
  RLock_acquire t true (-1) lk = Some (Return true, lk') ->
  holds t' lk' = if decide (t = t') then S (holds t' lk) else holds t' lk.
Proof.
  unfold RLock_acquire. simpl. destruct lk as [|o n].
  - intros [= <-]. simpl. by case_decide.
  - case_decide as Ho; [| done]. intros [= <-]. subst o. simpl.
    by case_decide.
Qed.

Lemma holds_release (t t' : thread) (lk : RLock) :
  0 < holds t lk ->
  holds t' (RLock_release t lk).2 =
    if decide (t = t') then Nat.pred (holds t' lk) else holds t' lk.
Proof.
  destruct lk as [|o n]; simpl; [lia |].
  case_decide as Ho; [| lia]. subst o. intros _.
  destruct n as [|n]; simpl; by case_decide.
Qed.

Lemma holds_exclusive (t1 t2 : thread) (lk : RLock) :
  t1 <> t2 -> 0 < holds t1 lk -> holds t2 lk = 0.
Proof.
  intros Hne. destruct lk as [|o n]; simpl; [done |].
  repeat case_decide; (done || lia || congruence).
Qed.

Lemma holds_owner (t : thread) (lk : RLock) :
  0 < holds t lk -> exists n, lk = Locked t n.
Proof.
  destruct lk as [|o n]; simpl; [lia |].
  case_decide; [subst; eauto | lia].
Qed.

Lemma valid_acquire_args_default : valid_acquire_args true (-1).
Proof. split; [done |]. unfold TIMEOUT_MAX. lia. Qed.

End Serialization.

Section FunctionThreadsProperties.

Context {St : Type}.

Local Open Scope nat_scope.

Lemma fun_stack_fun_set (t t' : thread) (st : list (frame unit))
    (w : @FunWorld St) (c : FunThreads) :
  fun_stack t' (fun_set t st w c) =
    if decide (t = t') then st else fun_stack t' c.
Proof.
  unfold fun_stack, fun_set. simpl. case_decide as Ht.
  - subst. by rewrite lookup_insert_eq.
  - by rewrite lookup_insert_ne.
Qed.

(** Each thread is inside exactly as many bodies as it holds the lock
    times. *)
Lemma fun_invariant (c : @FunThreads St) :
  fun_reachable c ->
  forall t, running (fun_stack t c) = holds t (__lock__ (fun_world c)).
Proof.
  induction 1 as [st|c c' _ IH Hstep]; intros t'.
  - done.
  - destruct Hstep as [t c Hcall|t c rest lk Hst Hacq|t c rest st Hst
                       |t c rest Hst];
      rewrite fun_stack_fun_set; simpl.
    + case_decide; [subst; simpl |]; apply IH.
    + rewrite (holds_acquire _ t' _ _ Hacq).
      case_decide; [subst t' |]; [| apply IH].
      simpl. rewrite <- IH, Hst. done.
    + case_decide; [subst t' |]; [| apply IH].
      rewrite <- IH, Hst. done.
    + assert (0 < holds t (__lock__ (fun_world c))) as Hpos.
      { rewrite <- IH, Hst. simpl. lia. }
      rewrite (holds_release _ t' _ Hpos).
      case_decide; [subst t' |]; [| apply IH].
      rewrite <- IH, Hst. done.
Qed.

Lemma set_fun_state_eta (w0 w1 : @FunWorld St) :
  __lock__ w1 = __lock__ w0 -> set_fun_state (fun_state w1) w0 = w1.
Proof. destruct w0, w1. simpl. by intros ->. Qed.

Context {A R : Type}.
Variable target : A -> Py (@FunWorld St) R.

(** A call of [synchronized] that gets the lock, with a body that leaves
    [target.__lock__] alone, is four steps of the calling thread: the
    call, the acquire, the body and the release. *)
Lemma synchronized_fun_steps (c : FunThreads) (t : thread) (args : A)
    (lk : RLock) (o : outcome R) (w1 : FunWorld) :
  may_call (fun_stack t c) ->
  RLock_acquire t true (-1) (__lock__ (fun_world c)) = Some (Return true, lk) ->
  target args (set___lock__ lk (fun_world c)) = (o, w1) ->
  __lock__ w1 = lk ->
  exists c1 c2 c3 c4,
    (fun_step c c1 /\ fun_step c1 c2 /\ fun_step c2 c3 /\ fun_step c3 c4) /\
    (fun_world c2 = set___lock__ lk (fun_world c) /\
     fun_stack t c2 = Running tt :: fun_stack t c /\
     fun_world c3 = w1) /\
    synchronized target true (-1) t args (fun_world c) =
      Some (outcome_some o, fun_world c4) /\
    forall t', fun_stack t' c4 = fun_stack t' c.
Proof.
  intros Hcall Hacq Hrun Hkept.
  set (c1 := fun_set t (Acquiring tt :: fun_stack t c) (fun_world c) c).
  set (c2 := fun_set t (Running tt :: fun_stack t c)
               (set___lock__ lk (fun_world c1)) c1).
  set (c3 := fun_set t (Running tt :: fun_stack t c)
               (set_fun_state (fun_state w1) (fun_world c2)) c2).
  set (c4 := fun_set t (fun_stack t c)
               (set___lock__ (RLock_release t (__lock__ (fun_world c3))).2
                  (fun_world c3)) c3).
  assert (fun_stack t c1 = Acquiring tt :: fun_stack t c) as Hst1.
  { unfold c1. by rewrite fun_stack_fun_set, decide_True. }
  assert (fun_stack t c2 = Running tt :: fun_stack t c) as Hst2.
  { unfold c2. by rewrite fun_stack_fun_set, decide_True. }
  assert (fun_stack t c3 = Running tt :: fun_stack t c) as Hst3.
  { unfold c3. by rewrite fun_stack_fun_set, decide_True. }
  assert (fun_world c3 = w1) as Hw3.
  { unfold c3. simpl. by apply set_fun_state_eta. }
  exists c1, c2, c3, c4. split; [| split; [| split]].
  - split; [by apply fun_call |].
    split; [by apply (fun_acquire t c1 (fun_stack t c) lk) |].
    split; [by apply (fun_body t c2 (fun_stack t c)) |].
    by apply (fun_leave t c3 (fun_stack t c)).
  - done.
  - rewrite (synchronized_acquired _ _ _ _ _ _ _ Hacq), Hrun.
    change (fun_world c4)
      with (set___lock__ (RLock_release t (__lock__ (fun_world c3))).2
              (fun_world c3)).
    by rewrite Hw3.
  - intros t'. unfold c4, c3, c2, c1. rewrite !fun_stack_fun_set.
    case_decide as Ht; [by rewrite Ht | done].
Qed.

(** While [t1] is inside the body: [t2] is not, its call of the wrapper
    does not return, and no step brings it into the body; the [acquire] of
    [t1], when it has called again, comes back, and a call of the wrapper
    by [t1] runs the body, one level deeper, and returns. *)
Lemma fun_serializes (c : FunThreads) (t1 t2 : thread) :
  fun_reachable c ->
  t1 <> t2 ->
  0 < running (fun_stack t1 c) ->
  (running (fun_stack t2 c) = 0 /\
   (forall args,
      synchronized target true (-1) t2 args (fun_world c) = None) /\
   (forall c', fun_step c c' -> running (fun_stack t2 c') = 0)) /\
  ((forall rest,
      fun_stack t1 c = Acquiring tt :: rest ->
      exists c', fun_step c c' /\ fun_stack t1 c' = Running tt :: rest) /\
   (forall args,
      exists w0 o w1 w',
        holds t1 (__lock__ w0) = S (holds t1 (__lock__ (fun_world c))) /\
        fun_state w0 = fun_state (fun_world c) /\
        target args w0 = (o, w1) /\
        synchronized target true (-1) t1 args (fun_world c) =
          Some (outcome_some o, w') /\
        __lock__ w' = (RLock_release t1 (__lock__ w1)).2 /\
        fun_state w' = fun_state w1)).
Proof.
  intros Hreach Hne Hrun.
  pose proof (fun_invariant c Hreach) as Hinv.
  assert (0 < holds t1 (__lock__ (fun_world c))) as Hholds
    by (by rewrite <- Hinv).
  destruct (holds_owner _ _ Hholds) as [n Hlk].
  assert (running (fun_stack t2 c) = 0) as Hidle.
  { rewrite Hinv. by apply (holds_exclusive t1). }
  assert (RLock_acquire t2 true (-1) (__lock__ (fun_world c)) = None)
    as Hblocked.
  { rewrite Hlk. by apply RLock_acquire_waits. }
  assert (RLock_acquire t1 true (-1) (__lock__ (fun_world c)) =
            Some (Return true, Locked t1 (S n))) as Hmine.
  { rewrite Hlk. apply RLock_acquire_held, valid_acquire_args_default. }
  split; [split; [done | split] | split].
  - intros args. unfold synchronized. by rewrite Hblocked.
  - intros c' Hstep.
    destruct Hstep as [t c Hcall|t c rest lk Hst Hacq|t c rest st Hst
                       |t c rest Hst];
      rewrite fun_stack_fun_set; case_decide as Ht; try done; subst t.
    + simpl. done.
    + congruence.
    + rewrite Hst in Hidle. done.
    + rewrite Hst in Hidle. done.
  - intros rest Hst.
    exists (fun_set t1 (Running tt :: rest)
              (set___lock__ (Locked t1 (S n)) (fun_world c)) c).
    split; [by apply fun_acquire |].
    by rewrite fun_stack_fun_set, decide_True.
  - intros args.
    destruct (synchronized_enters target true (-1) t1 args (fun_world c)
                _ Hmine) as (w0 & o & w1 & w' & H0 & Hs0 & Hbody & Hw & Hl & Hs & _).
    exists w0, o, w1, w'. split; [| done].
    rewrite H0, Hlk. simpl. by rewrite !decide_True.
Qed.

End FunctionThreadsProperties.

Section MethodThreadsProperties.

Context {A R St : Type}.
Variable target : A -> Py (@MethWorld St) R.
Variable target___name__ : string.
Variable lock_name : option string.

Local Abbreviation name := (resolved_lock_name target___name__ lock_name).

Local Open Scope nat_scope.

Lemma meth_stack_meth_set (t t' : thread) (st : list (frame loc))
    (w : @MethWorld St) (c : MethThreads) :
  meth_stack t' (meth_set t st w c) =
    if decide (t = t') then st else meth_stack t' c.
Proof.
  unfold meth_stack, meth_set. simpl. case_decide as Ht.
  - subst. by rewrite lookup_insert_eq.
  - by rewrite lookup_insert_ne.
Qed.

Lemma lock_state_set_lock_state_same (w : @MethWorld St) (l : loc)
    (lk : RLock) :
  lock_state l (set_lock_state l lk w) = lk.
Proof. rewrite lock_state_set_lock_state. by rewrite decide_True. Qed.

Lemma method_lock_attr (w : @MethWorld St) (l : loc) :
  self_attrs w !! name = Some l -> method_lock name w = lock_state l w.
Proof. unfold method_lock. by intros ->. Qed.

Lemma get_or_create_lock_found (w : @MethWorld St) (l : loc) :
  self_attrs w !! name = Some l -> get_or_create_lock name w = (l, w).
Proof. unfold get_or_create_lock. by intros ->. Qed.

(** The meta lock is free between steps, every activation works on the
    lock the attribute refers to, and each thread is inside exactly as many
    bodies as it holds that lock times. *)
Lemma meth_invariant (c : @MethThreads St) :
  meth_reachable name c ->
  _synchronized_meta_lock (meth_world c) = false /\
  (forall t f, f ∈ meth_stack t c ->
     self_attrs (meth_world c) !! name = Some (frame_lock f)) /\
  (forall t, running (meth_stack t c) =
             holds t (method_lock name (meth_world c))).
Proof.
  induction 1 as [w Hmeta Hfree|c c' _ IH Hstep].
  - split; [done |]. split.
    + intros t f. unfold meth_stack, meth_init. simpl.
      rewrite lookup_empty. simpl. by intros ?%elem_of_nil.
    + intros t. simpl. by rewrite Hfree.
  - destruct IH as (Hmeta & Hfr & Hrun).
    destruct Hstep as [t c l w' Hcall Hm Hget|t c l rest lk Hst Hacq
                       |t c l rest st Hst|t c l rest Hst].
    + unfold get_or_create_lock in Hget.
      destruct (self_attrs (meth_world c) !! name) as [l0|] eqn:Hattr.
      * rewrite <- Hattr in Hfr.
        injection Hget as <- <-. split; [done |]. split.
        -- intros t' f. rewrite meth_stack_meth_set. simpl.
           case_decide; [subst t' |]; [| by apply Hfr].
           intros [->|Hin]%elem_of_cons; [done |]. by eapply Hfr.
        -- intros t'. rewrite meth_stack_meth_set. simpl.
           case_decide; [subst t' |]; apply Hrun.
      * assert (forall t' f, f ∈ meth_stack t' c -> False) as Hnone.
        { intros t' f Hin. by specialize (Hfr _ _ Hin). }
        assert (forall t', running (meth_stack t' c) = 0) as Hzero.
        { intros t'. rewrite Hrun. unfold method_lock. by rewrite Hattr. }
        injection Hget as <- <-. split; [done |]. split.
        -- intros t' f. rewrite meth_stack_meth_set. simpl.
           case_decide; [subst t' |]; [| by intros ?%Hnone].
           intros [->|Hin]%elem_of_cons; [| by apply Hnone in Hin].
           simpl. by rewrite lookup_insert_eq.
        -- intros t'. rewrite meth_stack_meth_set.
           unfold method_lock, lock_state. simpl.
           rewrite !lookup_insert_eq. simpl.
           case_decide; [subst t' |]; simpl; apply Hzero.
    + assert (self_attrs (meth_world c) !! name = Some l) as Hattr.
      { apply (Hfr t (Acquiring l)). rewrite Hst. by left. }
      split; [done |]. split.
      * intros t' f. rewrite meth_stack_meth_set. simpl.
        case_decide; [subst t' |]; [| by apply Hfr].
        intros [->|Hin]%elem_of_cons; [done |].
        apply (Hfr t). rewrite Hst. by right.
      * intros t'. rewrite meth_stack_meth_set. cbn [meth_world meth_set].
        rewrite (method_lock_attr _ l) by done.
        rewrite lock_state_set_lock_state_same.
        rewrite (holds_acquire _ t' _ _ Hacq).
        rewrite <- (method_lock_attr _ l) by done.
        case_decide; [subst t' |]; [| apply Hrun].
        simpl. rewrite <- Hrun, Hst. done.
    + split; [done |]. split.
      * intros t' f. rewrite meth_stack_meth_set. simpl.
        case_decide; [subst t' |]; [| by apply Hfr].
        rewrite <- Hst. by apply Hfr.
      * intros t'. rewrite meth_stack_meth_set.
        change (method_lock name (meth_world (meth_set t (Running l :: rest)
                  (set_meth_state st (meth_world c)) c)))
          with (method_lock name (meth_world c)).
        case_decide; [subst t' |]; [| apply Hrun].
        rewrite <- Hrun, Hst. done.
    + assert (self_attrs (meth_world c) !! name = Some l) as Hattr.
      { apply (Hfr t (Running l)). rewrite Hst. by left. }
      assert (0 < holds t (lock_state l (meth_world c))) as Hpos.
      { rewrite <- (method_lock_attr _ l), <- Hrun, Hst by done. simpl. lia. }
      split; [done |]. split.
      * intros t' f. rewrite meth_stack_meth_set. simpl.
        case_decide; [subst t' |]; [| by apply Hfr].
        intros Hin. apply (Hfr t). rewrite Hst. by right.
      * intros t'. rewrite meth_stack_meth_set. cbn [meth_world meth_set].
        rewrite (method_lock_attr _ l) by done.
        rewrite lock_state_set_lock_state_same.
        rewrite (holds_release _ t' _ Hpos).
        rewrite <- (method_lock_attr _ l) by done.
        case_decide; [subst t' |]; [| apply Hrun].
        rewrite <- Hrun, Hst. done.
Qed.

(** A call of [wrapped] that gets the lock, with a body that works on the
    state only, is four steps of the calling thread: the call with the
    block under the meta lock, the acquire, the body and the release. *)
Lemma synchronized_method_steps (c : MethThreads) (t : thread) (args : A)
    (l : loc) (wc : MethWorld) (lk : RLock) (o : outcome R) (w1 : MethWorld) :
  may_call (meth_stack t c) ->
  _synchronized_meta_lock (meth_world c) = false ->
  get_or_create_lock name (meth_world c) = (l, wc) ->
  RLock_acquire t true (-1) (lock_state l wc) = Some (Return true, lk) ->
  target args (set_lock_state l lk wc) = (o, w1) ->
  w1 = set_meth_state (meth_state w1) (set_lock_state l lk wc) ->
  exists c1 c2 c3 c4,
    (meth_step name c c1 /\ meth_step name c1 c2 /\
     meth_step name c2 c3 /\ meth_step name c3 c4) /\
    (meth_world c2 = set_lock_state l lk wc /\
     meth_stack t c2 = Running l :: meth_stack t c /\
     meth_world c3 = w1) /\
    synchronized_method_wrapped target target___name__ lock_name true (-1)
      t args (meth_world c) = Some (outcome_some o, meth_world c4) /\
    forall t', meth_stack t' c4 = meth_stack t' c.
Proof.
  intros Hcall Hmeta Hget Hacq Hrun Hkept.
  set (c1 := meth_set t (Acquiring l :: meth_stack t c) wc c).
  set (c2 := meth_set t (Running l :: meth_stack t c)
               (set_lock_state l lk (meth_world c1)) c1).
  set (c3 := meth_set t (Running l :: meth_stack t c)
               (set_meth_state (meth_state w1) (meth_world c2)) c2).
  set (c4 := meth_set t (meth_stack t c)
               (set_lock_state l
                  (RLock_release t (lock_state l (meth_world c3))).2
                  (meth_world c3)) c3).
  assert (meth_stack t c1 = Acquiring l :: meth_stack t c) as Hst1.
  { unfold c1. by rewrite meth_stack_meth_set, decide_True. }
  assert (meth_stack t c2 = Running l :: meth_stack t c) as Hst2.
  { unfold c2. by rewrite meth_stack_meth_set, decide_True. }
  assert (meth_stack t c3 = Running l :: meth_stack t c) as Hst3.
  { unfold c3. by rewrite meth_stack_meth_set, decide_True. }
  assert (meth_world c3 = w1) as Hw3.
  { unfold c3. simpl. by rewrite Hkept at 2. }
  exists c1, c2, c3, c4. split; [| split; [| split]].
  - split; [by apply meth_call |].
    split; [by apply (meth_acquire name t c1 l (meth_stack t c) lk) |].
    split; [by apply (meth_body name t c2 l (meth_stack t c)) |].
    by apply (meth_leave name t c3 l (meth_stack t c)).
  - done.
  - rewrite (synchronized_method_acquired _ _ _ _ _ _ _ _ _ _ _
               Hmeta Hget Hacq), Hrun.
    change (meth_world c4)
      with (set_lock_state l
              (RLock_release t (lock_state l (meth_world c3))).2
              (meth_world c3)).
    by rewrite Hw3.
  - intros t'. unfold c4, c3, c2, c1. rewrite !meth_stack_meth_set.
    case_decide as Ht; [by rewrite Ht | done].
Qed.

(** While [t1] is inside the body: [t2] is not, its call of the wrapper
    does not return, and no step brings it into the body; the [acquire] of
    [t1], when it has called again, comes back, and a call of the wrapper
    by [t1] runs the body, one level deeper, and returns. *)
Lemma meth_serializes (c : MethThreads) (t1 t2 : thread) :
  meth_reachable name c ->
  t1 <> t2 ->
  0 < running (meth_stack t1 c) ->
  (running (meth_stack t2 c) = 0 /\
   (forall args,
      synchronized_method_wrapped target target___name__ lock_name true (-1)
        t2 args (meth_world c) = None) /\
   (forall c', meth_step name c c' -> running (meth_stack t2 c') = 0)) /\
  ((forall l rest,
      meth_stack t1 c = Acquiring l :: rest ->
      exists c', meth_step name c c' /\ meth_stack t1 c' = Running l :: rest) /\
   (forall args,
      exists w0 o w1 w',
        holds t1 (method_lock name w0) =
          S (holds t1 (method_lock name (meth_world c))) /\
        meth_state w0 = meth_state (meth_world c) /\
        target args w0 = (o, w1) /\
        synchronized_method_wrapped target target___name__ lock_name true
          (-1) t1 args (meth_world c) = Some (outcome_some o, w') /\
        self_attrs w' = self_attrs w1 /\
        meth_state w' = meth_state w1)).
Proof.
  intros Hreach Hne Hrun.
  destruct (meth_invariant c Hreach) as (Hmeta & Hfr & Hinv).
  assert (0 < holds t1 (method_lock name (meth_world c))) as Hholds
    by (by rewrite <- Hinv).
  destruct (holds_owner _ _ Hholds) as [n Hlk].
  assert (exists l, self_attrs (meth_world c) !! name = Some l) as [l Hattr].
  { unfold method_lock in Hlk.
    destruct (self_attrs (meth_world c) !! name); [eauto | done]. }
  assert (lock_state l (meth_world c) = Locked t1 n) as Hstate.
  { by rewrite <- (method_lock_attr _ l). }
  pose proof (get_or_create_lock_found _ _ Hattr) as Hget.
  assert (running (meth_stack t2 c) = 0) as Hidle.
  { rewrite Hinv. by apply (holds_exclusive t1). }
  assert (RLock_acquire t2 true (-1) (lock_state l (meth_world c)) = None)
    as Hblocked.
  { rewrite Hstate. by apply RLock_acquire_waits. }
  assert (RLock_acquire t1 true (-1) (lock_state l (meth_world c)) =
            Some (Return true, Locked t1 (S n))) as Hmine.
  { rewrite Hstate. apply RLock_acquire_held, valid_acquire_args_default. }
  split; [split; [done | split] | split].
  - intros args. by eapply synchronized_method_waits.
  - intros c' Hstep.
    destruct Hstep as [t c l' w' Hcall Hm Hget'|t c l' rest lk Hst Hacq
                       |t c l' rest st Hst|t c l' rest Hst];
      rewrite meth_stack_meth_set; case_decide as Ht; try done; subst t.
    + simpl. done.
    + assert (self_attrs (meth_world c) !! name = Some l') as Hattr'.
      { apply (Hfr t2 (Acquiring l')). rewrite Hst. by left. }
      congruence.
    + rewrite Hst in Hidle. done.
    + rewrite Hst in Hidle. done.
  - intros l' rest Hst.
    assert (self_attrs (meth_world c) !! name = Some l') as Hattr'.
    { apply (Hfr t1 (Acquiring l')). rewrite Hst. by left. }
    assert (l' = l) as -> by congruence.
    exists (meth_set t1 (Running l :: rest)
              (set_lock_state l (Locked t1 (S n)) (meth_world c)) c).
    split; [by apply meth_acquire |].
    by rewrite meth_stack_meth_set, decide_True.
  - intros args.
    destruct (synchronized_method_enters target target___name__ lock_name
                true (-1) t1 args (meth_world c) _ l _ Hmeta Hget Hmine)
      as (w0 & o & w1 & w' & (Ha0 & Hl0 & _ & Hs0 & _) & Hbody & Hw
          & (_ & Ha' & Hs' & _) & _).
    exists w0, o, w1, w'. split; [| done].
    rewrite (method_lock_attr _ l Ha0), Hl0, Hlk. simpl.
    by rewrite !decide_True.
Qed.

End MethodThreadsProperties.

(** C8: for both lock decorators made with [blocking=True] and
    [timeout=-1], with threads that step through the wrapper -- call,
    acquire, body, release -- in any order, and bodies that leave the lock
    alone. A call of the wrapper that gets the lock is these four steps of
    its thread. In every state the threads can reach, while one thread is
    inside the body: no other thread is, a call of the wrapper by another
    thread does not return, and no single step brings another thread into
    the body -- the second body cannot begin before the first has ended;
    and the thread inside, when it has called the wrapper again, gets the
    lock at once, and its call of the wrapper runs the body, holding the
    lock once more, and returns. *)
Theorem synchronized_serializes {A R St : Type}
    (ftarget : A -> Py (@FunWorld St) R)
    (mtarget : A -> Py (@MethWorld St) R)
    (target___name__ : string) (lock_name : option string) :
  let name := resolved_lock_name target___name__ lock_name in
  let f := synchronized ftarget true (-1) in
  let m := synchronized_method_wrapped mtarget target___name__ lock_name
             true (-1) in
  (forall (c : FunThreads) t args lk o w1,
     may_call (fun_stack t c) ->
     RLock_acquire t true (-1) (__lock__ (fun_world c)) =
       Some (Return true, lk) ->
     ftarget args (set___lock__ lk (fun_world c)) = (o, w1) ->
     __lock__ w1 = lk ->
     exists c1 c2 c3 c4,
       (fun_step c c1 /\ fun_step c1 c2 /\ fun_step c2 c3 /\ fun_step c3 c4) /\
       (fun_world c2 = set___lock__ lk (fun_world c) /\
        fun_stack t c2 = Running tt :: fun_stack t c /\
        fun_world c3 = w1) /\
       f t args (fun_world c) = Some (outcome_some o, fun_world c4) /\
       forall t', fun_stack t' c4 = fun_stack t' c) /\
  (forall (c : FunThreads) t1 t2,
     fun_reachable c -> t1 <> t2 -> (0 < running (fun_stack t1 c))%nat ->
     (running (fun_stack t2 c) = O /\
      (forall args, f t2 args (fun_world c) = None) /\
      (forall c', fun_step c c' -> running (fun_stack t2 c') = O)) /\
     ((forall rest,
         fun_stack t1 c = Acquiring tt :: rest ->
         exists c', fun_step c c' /\ fun_stack t1 c' = Running tt :: rest) /\
      (forall args,
         exists w0 o w1 w',
           holds t1 (__lock__ w0) = S (holds t1 (__lock__ (fun_world c))) /\
           fun_state w0 = fun_state (fun_world c) /\
           ftarget args w0 = (o, w1) /\
           f t1 args (fun_world c) = Some (outcome_some o, w') /\
           __lock__ w' = (RLock_release t1 (__lock__ w1)).2 /\
           fun_state w' = fun_state w1))) /\
  (forall (c : MethThreads) t args l wc lk o w1,
     may_call (meth_stack t c) ->
     _synchronized_meta_lock (meth_world c) = false ->
     get_or_create_lock name (meth_world c) = (l, wc) ->
     RLock_acquire t true (-1) (lock_state l wc) = Some (Return true, lk) ->
     mtarget args (set_lock_state l lk wc) = (o, w1) ->
     w1 = set_meth_state (meth_state w1) (set_lock_state l lk wc) ->
     exists c1 c2 c3 c4,
       (meth_step name c c1 /\ meth_step name c1 c2 /\
        meth_step name c2 c3 /\ meth_step name c3 c4) /\
       (meth_world c2 = set_lock_state l lk wc /\
        meth_stack t c2 = Running l :: meth_stack t c /\
        meth_world c3 = w1) /\
       m t args (meth_world c) = Some (outcome_some o, meth_world c4) /\
       forall t', meth_stack t' c4 = meth_stack t' c) /\
  (forall (c : MethThreads) t1 t2,
     meth_reachable name c -> t1 <> t2 ->
     (0 < running (meth_stack t1 c))%nat ->
     (running (meth_stack t2 c) = O /\
      (forall args, m t2 args (meth_world c) = None) /\
      (forall c', meth_step name c c' -> running (meth_stack t2 c') = O)) /\
     ((forall l rest,
         meth_stack t1 c = Acquiring l :: rest ->
         exists c',
           meth_step name c c' /\ meth_stack t1 c' = Running l :: rest) /\
      (forall args,
         exists w0 o w1 w',
           holds t1 (method_lock name w0) =
             S (holds t1 (method_lock name (meth_world c))) /\
           meth_state w0 = meth_state (meth_world c) /\
           mtarget args w0 = (o, w1) /\
           m t1 args (meth_world c) = Some (outcome_some o, w') /\
           self_attrs w' = self_attrs w1 /\
           meth_state w' = meth_state w1))).
Proof.
  intros name f m. split; [| split; [| split]].
  - intros c t args lk o w1. apply synchronized_fun_steps.
  - intros c t1 t2. apply fun_serializes.
  - intros c t args l wc lk o w1. apply synchronized_method_steps.
  - intros c t1 t2. apply meth_serializes.
Qed.

(** * Worked examples *)

Lemma list_get_hit (m : list Cue) (i : Z) (c : Cue) :
  item m i = Some c -> list_get m i = Return c.
Proof. unfold list_get. by intros ->. Qed.

Lemma list_get_miss (m : list Cue) (i : Z) :
  item m i = None ->
  exists e, list_get m i = Raise e /\ is_lookup_error e = true.
Proof. unfold list_get. intros ->. by exists IndexError. Qed.

(** Three cues under [Stop]: a request for index 5 is ignored, a request
    for index 1 makes row 1 and its cue current; under [Restart] the
    request for index 5 makes row [5 % 3 = 2] current. *)
Lemma set_current_index_spec_witness :
  view_synced (show [cue_a; cue_b; cue_c] 2 true Stop) /\
  set_current_index 5 (show [cue_a; cue_b; cue_c] 2 true Stop) =
    (Return tt, show [cue_a; cue_b; cue_c] 2 true Stop) /\
  (current_index
     (set_current_index 1 (show [cue_a; cue_b; cue_c] 2 true Stop)).2 = 1 /\
   current_cue
     (set_current_index 1 (show [cue_a; cue_b; cue_c] 2 true Stop)).2 =
     Some cue_b) /\
  current_index
    (set_current_index 5 (show [cue_a; cue_b; cue_c] 0 true Restart)).2 = 2.
Proof.
  split; [reflexivity |]. split; [| split].
  - exact (set_current_index_spec (show [cue_a; cue_b; cue_c] 2 true Stop) 5
             eq_refl).
  - exact (proj2 (set_current_index_spec
                    (show [cue_a; cue_b; cue_c] 2 true Stop) 1 eq_refl)).
  - exact (proj1 (proj2 (set_current_index_spec
                           (show [cue_a; cue_b; cue_c] 0 true Restart) 5
                           eq_refl))).
Defined.

(** The same request under [Restart] selects [5 % 3 = 2]. *)
Example set_current_index_restart_5 :
  (set_current_index 5 (show [cue_a; cue_b; cue_c] 0 true Restart)).2 =
    show [cue_a; cue_b; cue_c] 2 true Restart.
Proof. reflexivity. Qed.

Lemma set_current_index_empty_restart_witness :
  _end_list (show [] (-1) true Restart) = Restart /\
  _model_adapter (show [] (-1) true Restart) = [] /\
  set_current_index 7 (show [] (-1) true Restart) =
    (Raise ZeroDivisionError, show [] (-1) true Restart).
Proof.
  split; [reflexivity |]. split; [reflexivity |].
  exact (set_current_index_empty_restart (show [] (-1) true Restart) 7
           eq_refl eq_refl).
Defined.

Lemma set_current_index_restart_in_range_witness :
  exists l',
    set_current_index (-1) (show [cue_a; cue_b; cue_c] 0 true Restart) =
      (Return tt, l') /\
    current_index l' = 2.
Proof.
  destruct (set_current_index_restart_in_range
              (show [cue_a; cue_b; cue_c] 0 true Restart) (-1)
              eq_refl eq_refl ltac:(discriminate))
    as (l' & Hset & _ & _ & Hlast).
  exists l'. split; [exact Hset | exact (Hlast eq_refl)].
Defined.

(** The cue at index 0 of three finishes while the cue after it is current
    and auto-continue is on: that cue is executed and the selection moves
    on to index 2. *)
Lemma cue_next_spec_witness :
  view_synced (show [cue_a; cue_b; cue_c] 1 true Stop) /\
  __cue_next list_get cue_a (show [cue_a; cue_b; cue_c] 1 true Stop) =
    (Return tt,
     setCurrentItem 2
       (emit (CueExecute cue_b None) (show [cue_a; cue_b; cue_c] 1 true Stop))).
Proof.
  split; [reflexivity |].
  exact (proj1 (proj1 (cue_next_spec list_get list_get_hit list_get_miss
                         (show [cue_a; cue_b; cue_c] 1 true Stop) cue_a
                         eq_refl))).
Defined.

(** C2 as stated fails: in a show of two cues under [Stop], when the first
    cue finishes while the second is current and auto-continue is on, the
    second cue is executed but the selection stays on index 1; it does not
    become index 2. *)
Lemma cue_next_selection_stays_at_end :
  ~ (forall (l l' : ListLayout) (cue next_cue : Cue),
       view_synced l ->
       item (_model_adapter l) (index cue + 1) = Some next_cue ->
       _auto_continue l = true ->
       current_cue l = Some next_cue ->
       __cue_next list_get cue l = (Return tt, l') ->
       current_index l' = index cue + 2).
Proof.
  intros Hclaim.
  specialize (Hclaim (show [cue_a; cue_b] 1 true Stop)
                (emit (CueExecute cue_b None) (show [cue_a; cue_b] 1 true Stop))
                cue_a cue_b eq_refl eq_refl eq_refl eq_refl eq_refl).
  discriminate Hclaim.
Qed.

(** The spec's two-cue example: the cue at index 1 finishes, there is no
    index 2, and nothing happens. *)
Example cue_next_last_of_two :
  __cue_next list_get cue_b (show [cue_a; cue_b] 1 true Stop) =
    (Return tt, show [cue_a; cue_b] 1 true Stop).
Proof. reflexivity. Qed.

(** [go] on the second of three cues with auto-continue on. *)
Example go_second_of_three :
  go Default 1 (show [cue_a; cue_b; cue_c] 1 true Stop) =
    (Return tt,
     {| _model_adapter := [cue_a; cue_b; cue_c];
        listView := {| topLevelItems := [cue_a; cue_b; cue_c]; currentRow := 2 |};
        _auto_continue := true;
        _end_list := Stop;
        events := [CueExecute cue_b (Some Default); CueExecutedEmit cue_b] |}).
Proof. reflexivity. Qed.

Lemma sum_body_keeps_entries (args : list Z) (kwargs : list (string * Z))
    (w : MemoWorld) :
  cache w ⊆ cache (sum_body args kwargs w).2.
Proof. done. Qed.

(** [f(1,2)], then [f(2,1)], then [f(1,2)] again: the third call returns
    the cached 3 and the body has run twice, not three times. *)
Lemma memoize_spec_witness :
  memoizer str_tuple str_dict sum_body [1; 2] []
    (memo_calls str_tuple str_dict sum_body [([1; 2], []); ([2; 1], [])]
       memo_start) =
    (Return 3,
     memo_calls str_tuple str_dict sum_body [([1; 2], []); ([2; 1], [])]
       memo_start) /\
  memo_state
    (memo_calls str_tuple str_dict sum_body
       [([1; 2], []); ([2; 1], []); ([1; 2], [])] memo_start) = 2%nat.
Proof.
  split.
  - apply (proj1 (proj2 (memoize_spec str_tuple str_dict sum_body
                           sum_body_keeps_entries [1; 2] [] _))
             [1; 2] [] memo_start
             (memoizer str_tuple str_dict sum_body [1; 2] [] memo_start).2
             3 [([2; 1], [])]).
    + reflexivity.
    + vm_compute. reflexivity.
    + reflexivity.
  - vm_compute. reflexivity.
Defined.

Example str_tuple_1_2 : memo_key str_tuple str_dict [1; 2] [] = "(1, 2){}".
Proof. vm_compute. reflexivity. Qed.

Lemma sig_a_varnames : co_varnames fn_a_int = signature_varnames sig_a.
Proof. reflexivity. Qed.

Lemma sig_a_annotated :
  annotated_are_positional sig_a (__annotations__ fn_a_int).
Proof.
  intros [|index] name t Hname _; [simpl; lia |].
  by destruct index.
Qed.

(** [fn(a: int)] called as [fn("x")] raises the type error of a parameter
    with a wrong argument and the body is not run; called as [fn(1)] it is
    the call of the body. *)
Lemma typechecked_spec_witness :
  (exists name,
     violation isinstance_val sig_a (__annotations__ fn_a_int)
       [VStr "x"] ∅ name /\
     typechecked_wrapped isinstance_val fn_a_int [VStr "x"] ∅ O =
       (Raise (incorrect_type name), O)) /\
  typechecked_wrapped isinstance_val fn_a_int [VInt 1] ∅ O =
    __call__ fn_a_int [VInt 1] ∅ O.
Proof.
  split.
  - apply (proj1 (typechecked_spec isinstance_val sig_a fn_a_int
                    [VStr "x"] ∅ O sig_a_varnames sig_a_annotated)).
    exists "a", PyInt, (VStr "x").
    split; [reflexivity |]. split; [reflexivity |].
    left. exists O. split; reflexivity.
  - apply (proj2 (typechecked_spec isinstance_val sig_a fn_a_int
                    [VInt 1] ∅ O sig_a_varnames sig_a_annotated)).
    intros name (t & v & Ht & Hno & [(index & Hname & Hv)|[Hkw _]]).
    + destruct index as [|index]; [| by destruct index].
      injection Hname as <-. injection Hv as <-. injection Ht as <-.
      discriminate Hno.
    + by apply elem_of_nil in Hkw.
Defined.

Example typechecked_fn_x :
  typechecked_wrapped isinstance_val fn_a_int [VStr "x"] ∅ O =
    (Raise (incorrect_type "a"), O).
Proof. vm_compute. reflexivity. Qed.

Example typechecked_fn_1 :
  typechecked_wrapped isinstance_val fn_a_int [VInt 1] ∅ O =
    (Return tt, 1%nat).
Proof. vm_compute. reflexivity. Qed.

Example typechecked_fn_keyword_x :
  typechecked_wrapped isinstance_val fn_a_int [] {["a" := VStr "x"]} O =
    (Raise (incorrect_type "a"), O).
Proof. vm_compute. reflexivity. Qed.

(** In the call [fn3("x", a=1)] no parameter is bound to an argument of
    the wrong class. *)
Lemma fn_star_args_a_int_correct_call (name : string) :
  ~ violation isinstance_val sig_star_args_a
      (__annotations__ fn_star_args_a_int) [VStr "x"] {["a" := VInt 1]} name.
Proof.
  intros (t & v & Ht & Hno & [(index & Hname & _)|[Hkw Hv]]).
  - by destruct index.
  - apply list_elem_of_singleton in Hkw as ->.
    assert (v = VInt 1) as ->.
    { unfold bound_keyword_only in Hv. rewrite lookup_singleton_eq in Hv.
      congruence. }
    assert (t = PyInt) as ->.
    { simpl in Ht. rewrite lookup_singleton_eq in Ht. congruence. }
    discriminate Hno.
Qed.

(** C6 (fails on the code): [fn3] takes [*args] and then a keyword-only
    [a: int], so its variable names are [a], then [args]. The wrapper takes
    the first positional argument for the value of [a]. In the call
    [fn3("x", a=1)] every annotated parameter is bound to an argument of
    its class, yet the wrapper raises the type error for [a] and the body,
    which the call itself would run, is not run. In the call
    [fn3(1, a="x")] the argument bound to [a] is not an [int], yet no type
    error is raised and the body runs. *)
Theorem typechecked_keyword_only_mischecked :
  ((forall name,
      ~ violation isinstance_val sig_star_args_a
          (__annotations__ fn_star_args_a_int) [VStr "x"] {["a" := VInt 1]}
          name) /\
   typechecked_wrapped isinstance_val fn_star_args_a_int [VStr "x"]
     {["a" := VInt 1]} O = (Raise (incorrect_type "a"), O) /\
   __call__ fn_star_args_a_int [VStr "x"] {["a" := VInt 1]} O =
     (Return tt, 1%nat)) /\
  (violation isinstance_val sig_star_args_a
     (__annotations__ fn_star_args_a_int) [VInt 1] {["a" := VStr "x"]} "a" /\
   typechecked_wrapped isinstance_val fn_star_args_a_int [VInt 1]
     {["a" := VStr "x"]} O = (Return tt, 1%nat)).
Proof.
  split; [split; [| split] | split].
  - exact fn_star_args_a_int_correct_call.
  - vm_compute. reflexivity.
  - reflexivity.
  - exists PyInt, (VStr "x"). split; [reflexivity |]. split; [reflexivity |].
    right. split; [by apply list_elem_of_singleton | reflexivity].
  - vm_compute. reflexivity.
Qed.

(** The variable names of [fn3] are those of its signature: the
    keyword-only [a] comes before [args]. *)
Example fn_star_args_a_int_varnames :
  co_varnames fn_star_args_a_int = ["a"; "args"].
Proof. reflexivity. Qed.

(** Thread 1 calls a function and a method whose lock thread 0 holds,
    without blocking: it gets [None] and the world is as before. It calls
    them when the lock is free, the body raising: the body ran with the
    lock held by thread 1, its exception comes out of the wrapper, and the
    lock is the one the body left, released. *)
Lemma synchronized_lock_handling_witness :
  (synchronized raising_function false (-1) 1%nat tt
     {| __lock__ := Locked 0%nat 0; fun_state := O |} =
     Some (Return None, {| __lock__ := Locked 0%nat 0; fun_state := O |}) /\
   synchronized_method_wrapped raising_method "play" None false (-1) 1%nat tt
     (object_with_lock "__play_lock__" (Locked 0%nat 0)) =
     Some (Return None, object_with_lock "__play_lock__" (Locked 0%nat 0))) /\
  (exists w0 o w1 w',
     __lock__ w0 = Locked 1%nat 0 /\
     fun_state w0 = O /\
     raising_function tt w0 = (o, w1) /\
     synchronized raising_function false (-1) 1%nat tt
       {| __lock__ := Unlocked; fun_state := O |} =
       Some (outcome_some o, w') /\
     __lock__ w' = (RLock_release 1%nat (__lock__ w1)).2 /\
     fun_state w' = fun_state w1) /\
  (exists w0 o w1 w',
     lock_state O w0 = Locked 1%nat 0 /\
     raising_method tt w0 = (o, w1) /\
     synchronized_method_wrapped raising_method "play" None false (-1) 1%nat
       tt fresh_object = Some (outcome_some o, w') /\
     lock_state O w' = (RLock_release 1%nat (lock_state O w1)).2 /\
     self_attrs w' = self_attrs w1).
Proof.
  pose proof (synchronized_lock_handling raising_function raising_method
                "play" None false (-1) 1%nat tt) as (F1 & F2 & M1 & M2).
  assert (0%nat <> 1%nat) as Hne by discriminate.
  assert (gives_up false (-1)) as Hg by (left; split; reflexivity).
  split; [split |]; [| | split].
  - exact (proj1 (F1 {| __lock__ := Locked 0%nat 0; fun_state := O |}
                    0%nat O eq_refl Hne Hg)).
  - assert (self_attrs (object_with_lock "__play_lock__" (Locked 0%nat 0))
              !! resolved_lock_name "play" None = Some O) as Hattr.
    { vm_compute. reflexivity. }
    assert (lock_objects (object_with_lock "__play_lock__" (Locked 0%nat 0))
              !! O = Some (Locked 0%nat 0)) as Hlk.
    { vm_compute. reflexivity. }
    exact (proj1 (M1 (object_with_lock "__play_lock__" (Locked 0%nat 0))
                    O 0%nat O eq_refl Hattr Hlk Hne Hg)).
  - destruct (F2 {| __lock__ := Unlocked; fun_state := O |} (Locked 1%nat 0)
                eq_refl)
      as (w0 & o & w1 & w' & H0 & Hs0 & Hbody & Hw & Hl & Hs & _).
    exists w0, o, w1, w'.
    split; [exact H0 |]. split; [exact Hs0 |]. split; [exact Hbody |].
    split; [exact Hw |]. split; [exact Hl | exact Hs].
  - assert (get_or_create_lock (resolved_lock_name "play" None) fresh_object =
              (O, object_with_lock "__play_lock__" Unlocked)) as Hget.
    { vm_compute. reflexivity. }
    assert (RLock_acquire 1%nat false (-1)
              (lock_state O (object_with_lock "__play_lock__" Unlocked)) =
            Some (Return true, Locked 1%nat 0)) as Hacq.
    { vm_compute. reflexivity. }
    destruct (M2 fresh_object (object_with_lock "__play_lock__" Unlocked)
                O (Locked 1%nat 0) eq_refl Hget Hacq)
      as (w0 & o & w1 & w' & (_ & H0 & _) & Hbody & Hw & (Hl & Ha & _) & _).
    exists w0, o, w1, w'.
    split; [exact H0 |]. split; [exact Hbody |]. split; [exact Hw |].
    split; [exact Hl | exact Ha].
Defined.

(** The same calls, computed. *)
Example synchronized_raising_function_free :
  synchronized raising_function true (-1) 1%nat tt
    {| __lock__ := Unlocked; fun_state := O |} =
    Some (Raise (UserError "boom"),
          {| __lock__ := Unlocked; fun_state := 1%nat |}).
Proof. vm_compute. reflexivity. Qed.

Example synchronized_raising_method_fresh :
  synchronized_method_wrapped raising_method "play" None true (-1) 1%nat tt
    fresh_object =
    Some (Raise (UserError "boom"),
          {| _synchronized_meta_lock := false;
             self_attrs := {["__play_lock__" := O]};
             lock_objects := {[O := Unlocked]};
             meth_state := 1%nat |}).
Proof. vm_compute. reflexivity. Qed.

(** A body that deletes the lock attribute: the wrapper still releases the
    lock it made, and leaves the object without the attribute. *)
Example synchronized_forgetful_method :
  exists w',
    synchronized_method_wrapped forgetful_method "play" None true (-1) 1%nat
      tt fresh_object = Some (Return (Some tt), w') /\
    self_attrs w' !! "__play_lock__" = None /\
    lock_state O w' = Unlocked.
Proof. eexists. split; [vm_compute; reflexivity |]. split; reflexivity. Qed.

(** An integer timeout beyond [threading.TIMEOUT_MAX]: [acquire] raises
    [OverflowError], whatever the blocking mode. *)
Example synchronized_timeout_too_large :
  synchronized counting_function false (2 ^ 64) 1%nat tt
    {| __lock__ := Unlocked; fun_state := O |} =
    Some (Raise OverflowError, {| __lock__ := Unlocked; fun_state := O |}).
Proof. vm_compute. reflexivity. Qed.

Lemma fun_reentering_reachable : fun_reachable fun_reentering.
Proof.
  apply (fun_reach_step fun_entered).
  - apply (fun_reach_step
             (fun_set 0%nat [Acquiring tt] (fun_world (fun_init O))
                (fun_init O))).
    + apply (fun_reach_step (fun_init O)); [apply fun_reach_init |].
      exact (fun_call 0%nat (fun_init O) I).
    + exact (fun_acquire 0%nat
               (fun_set 0%nat [Acquiring tt] (fun_world (fun_init O))
                  (fun_init O))
               [] (Locked 0%nat 0) eq_refl eq_refl).
  - exact (fun_call 0%nat fun_entered I).
Qed.

(** Thread 0 is inside the body of a synchronized function and has called
    it again: thread 1 is not inside, its call of the wrapper does not
    return, and the pending acquire of thread 0 goes through. *)
Lemma synchronized_serializes_witness :
  fun_reachable fun_reentering /\
  running (fun_stack 1%nat fun_reentering) = O /\
  synchronized counting_function true (-1) 1%nat tt
    (fun_world fun_reentering) = None /\
  exists c',
    fun_step fun_reentering c' /\
    fun_stack 0%nat c' = [Running tt; Running tt].
Proof.
  destruct (proj1 (proj2 (synchronized_serializes counting_function
                            raising_method "play" None))
              fun_reentering 0%nat 1%nat fun_reentering_reachable
              ltac:(discriminate) (Nat.lt_0_succ 0))
    as ((Hidle & Hblocked & _) & (Hreenter & _)).
  split; [exact fun_reentering_reachable |].
  split; [exact Hidle |]. split; [exact (Hblocked tt) |].
  destruct (Hreenter [Running tt] eq_refl) as (c' & Hstep & Hst).
  exists c'. split; [exact Hstep | exact Hst].
Defined.

(** A call of the counting function by thread 1, alone: the four steps. *)
Example synchronized_counting_function_steps :
  synchronized counting_function true (-1) 1%nat tt (fun_world (fun_init O)) =
    Some (Return (Some tt), {| __lock__ := Unlocked; fun_state := 1%nat |}).
Proof. vm_compute. reflexivity. Qed.

(** * Further properties of the list layout *)

Lemma same_show_refl (l : ListLayout) : same_show l l.
Proof. by repeat split. Qed.

Lemma same_show_trans (l1 l2 l3 : ListLayout) :
  same_show l1 l2 -> same_show l2 l3 -> same_show l1 l3.
Proof.
  intros (? & ? & ? & ?) (? & ? & ? & ?). repeat split; congruence.
Qed.

Lemma same_show_emit (e : Event) (l : ListLayout) : same_show l (emit e l).
Proof. by repeat split. Qed.

Lemma selection_ok_emit (e : Event) (l : ListLayout) :
  selection_ok l -> selection_ok (emit e l).
Proof. done. Qed.

(** The final layout of [set_current_index], whatever its outcome. *)
Lemma set_current_index_final (l : ListLayout) (index : Z) :
  (set_current_index index l).2 = l \/
  exists i, 0 <= i < topLevelItemCount (listView l) /\
            (set_current_index index l).2 = setCurrentItem i l.
Proof.
  destruct (set_current_index_cases l index)
    as [(i & Hi & ->)|[->|(_ & _ & ->)]]; eauto.
Qed.

Lemma set_current_index_keeps (l : ListLayout) (index : Z) :
  same_show l (set_current_index index l).2 /\
  events (set_current_index index l).2 = events l /\
  (selection_ok l -> selection_ok (set_current_index index l).2).
Proof.
  destruct (set_current_index_final l index) as [->|(i & Hi & ->)].
  - split; [apply same_show_refl | done].
  - split; [by repeat split |]. split; [done |].
    intros [Hsync _]. split; [done |]. right.
    rewrite (synced_count l Hsync) in Hi. done.
Qed.

Lemma go_keeps (l : ListLayout) (action : CueAction) (advance : Z) :
  same_show l (go action advance l).2 /\
  (selection_ok l -> selection_ok (go action advance l).2).
Proof.
  unfold go. destruct (current_cue l) as [c|]; [| by split; [apply same_show_refl |]].
  unfold bind, modify. cbn zeta. cbn [_auto_continue emit].
  set (l1 := emit (CueExecutedEmit c) (emit (CueExecute c (Some action)) l)).
  assert (same_show l l1) as Hsame by by repeat split.
  destruct (_auto_continue l); [| by split].
  destruct (set_current_index_keeps l1 (current_index l1 + advance))
    as (Hs & _ & Hok).
  split; [by eapply same_show_trans |].
  intros Hl. by apply Hok.
Qed.

Lemma cue_next_keeps (get : list Cue -> Z -> outcome Cue) (l : ListLayout)
    (c : Cue) :
  same_show l (__cue_next get c l).2 /\
  (selection_ok l -> selection_ok (__cue_next get c l).2) /\
  (events (__cue_next get c l).2 = events l \/
   exists next_cue,
     get (_model_adapter l) (index c + 1) = Return next_cue /\
     events (__cue_next get c l).2 = events l ++ [CueExecute next_cue None]).
Proof.
  unfold __cue_next, try_except. cbn zeta.
  case_decide; [| by split; [apply same_show_refl | split; [| left]]].
  unfold bind, lift.
  destruct (get (_model_adapter l) (index c + 1)) as [next_cue|e] eqn:Hget.
  - unfold modify. cbn [_auto_continue emit].
    set (l1 := emit (CueExecute next_cue None) l).
    assert (same_show l l1) as Hsame by by repeat split.
    destruct (_auto_continue l && bool_decide _).
    + destruct (set_current_index_cases l1 (index c + 1 + 1))
        as [(i & Hi & ->)|[->|(_ & _ & ->)]]; simpl.
      * split; [by repeat split |]. split; [| right; by exists next_cue].
        intros [Hsync _]. split; [done |]. right.
        rewrite (synced_count l1 Hsync) in Hi. done.
      * split; [done |]. split; [done |]. right. by exists next_cue.
      * split; [done |]. split; [done |]. right. by exists next_cue.
    + simpl. split; [done |]. split; [done |]. right. by exists next_cue.
  - destruct (is_lookup_error e); simpl;
      (split; [apply same_show_refl | split; [done | by left]]).
Qed.

(** X1: [set_current_index], [go] and [__cue_next] never change the cue
    list, the items of the view or the two options, and they keep the
    current row a position of the list or [-1]: a layout that starts with
    a valid selection stays that way, whatever the outcome of the call. *)
Theorem sequencing_keeps_selection_ok (get : list Cue -> Z -> outcome Cue)
    (l : ListLayout) (index advance : Z) (action : CueAction) (c : Cue) :
  selection_ok l ->
  (same_show l (set_current_index index l).2 /\
   selection_ok (set_current_index index l).2) /\
  (same_show l (go action advance l).2 /\
   selection_ok (go action advance l).2) /\
  (same_show l (__cue_next get c l).2 /\
   selection_ok (__cue_next get c l).2).
Proof.
  intros Hok. split; [| split].
  - destruct (set_current_index_keeps l index) as (? & _ & ?). auto.
  - destruct (go_keeps l action advance). auto.
  - destruct (cue_next_keeps get l c) as (? & ? & _). auto.
Qed.

(** X2: the handler of a finished cue executes at most one cue, the one the
    container gives for the next index, with no action argument, and it
    never emits the [cue_executed] signal that [go] emits. *)
Theorem cue_next_is_silent (get : list Cue -> Z -> outcome Cue)
    (l : ListLayout) (c : Cue) :
  events (__cue_next get c l).2 = events l \/
  exists next_cue,
    get (_model_adapter l) (index c + 1) = Return next_cue /\
    events (__cue_next get c l).2 = events l ++ [CueExecute next_cue None].
Proof.
  destruct (cue_next_keeps get l c) as (_ & _ & Hevents).
  exact Hevents.
Qed.

Lemma next_row_in_range (end_list : EndListBehavior) (n row : Z) :
  0 <= row < n -> 0 <= next_row end_list n row < n.
Proof.
  intros Hr. unfold next_row. destruct end_list.
  - case_decide; lia.
  - apply Z.mod_pos_bound. lia.
Qed.

(** One press of GO on a valid selection with auto-continue on. *)
Lemma go_slot_step (l : ListLayout) :
  view_synced l ->
  _auto_continue l = true ->
  0 <= current_index l < len (_model_adapter l) ->
  exists l',
    __go_slot l = (Return tt, l') /\
    same_show l l' /\
    current_index l' =
      next_row (_end_list l) (len (_model_adapter l)) (current_index l) /\
    events l' = events l ++ go_receipts (_model_adapter l) [current_index l].
Proof.
  intros Hsync Hauto Hrow.
  destruct (item (_model_adapter l) (current_index l)) as [c|] eqn:Hc;
    [| by apply item_None_range in Hc].
  unfold __go_slot, go, current_cue. rewrite Hc.
  unfold bind, modify. cbn zeta. cbn [_auto_continue emit]. rewrite Hauto.
  set (l1 := emit (CueExecutedEmit c) (emit (CueExecute c (Some Default)) l)).
  assert (view_synced l1) as Hsync1 by done.
  change (current_index l1) with (current_index l).
  assert (events l1 = events l ++ go_receipts (_model_adapter l) [current_index l])
    as Hev.
  { simpl. rewrite Hc. by rewrite <- app_assoc. }
  unfold next_row. destruct (_end_list l) eqn:He.
  - rewrite (set_current_index_stop_synced l1 _ Hsync1 He).
    change (_model_adapter l1) with (_model_adapter l).
    destruct (decide (current_index l + 1 < len (_model_adapter l))).
    + rewrite decide_True by lia. eexists. split; [done |].
      split; [by repeat split |]. by split.
    + rewrite decide_False by lia. eexists. split; [done |].
      split; [by repeat split |]. by split.
  - rewrite (set_current_index_restart_synced l1 _ Hsync1 He)
      by (change (_model_adapter l1) with (_model_adapter l); lia).
    eexists. split; [done |]. split; [by repeat split |]. by split.
Qed.

Lemma go_receipts_cons (m : list Cue) (row : Z) (rows : list Z) :
  go_receipts m (row :: rows) = go_receipts m [row] ++ go_receipts m rows.
Proof. simpl. by destruct (item m row). Qed.

(** [times] presses of GO visit the rows that [next_row] gives. *)
Lemma go_times_rows (times : nat) :
  forall l : ListLayout,
    view_synced l ->
    _auto_continue l = true ->
    0 <= current_index l < len (_model_adapter l) ->
    exists l',
      go_times times l = (Return tt, l') /\
      same_show l l' /\
      current_index l' =
        row_after (_end_list l) (len (_model_adapter l)) times (current_index l) /\
      events l' =
        events l ++
        go_receipts (_model_adapter l)
          (rows_visited (_end_list l) (len (_model_adapter l)) times
             (current_index l)).
Proof.
  induction times as [|times IH]; intros l Hsync Hauto Hrow.
  - exists l. split; [done |]. split; [apply same_show_refl |].
    split; [done |]. simpl. by rewrite app_nil_r.
  - destruct (go_slot_step l Hsync Hauto Hrow)
      as (l1 & Hgo & Hsame & Hrow1 & Hev1).
    destruct Hsame as (Hm & Hv & Ha & He).
    destruct (IH l1) as (l' & Htimes & Hsame' & Hrow' & Hev').
    { unfold view_synced in *. congruence. }
    { congruence. }
    { rewrite Hrow1, Hm. by apply next_row_in_range. }
    exists l'. split; [| split; [| split]].
    + simpl. unfold bind. by rewrite Hgo.
    + eapply same_show_trans; [| exact Hsame']. by repeat split.
    + rewrite Hrow', He, Hm, Hrow1. done.
    + rewrite Hev', Hev1, He, Hm, Hrow1. simpl rows_visited.
      rewrite (go_receipts_cons _ (current_index l) (rows_visited _ _ _ _)).
      by rewrite <- app_assoc.
Qed.

Lemma rows_restart (n : Z) (times : nat) :
  forall row, 0 <= row < n ->
    row_after Restart n times row = (row + Z.of_nat times) mod n /\
    rows_visited Restart n times row =
      (fun i : nat => (row + Z.of_nat i) mod n) <$> seq 0 times.
Proof.
  induction times as [|times IH]; intros row Hrow.
  - simpl. split; [| done]. rewrite Z.add_0_r. by rewrite Z.mod_small.
  - destruct (IH ((row + 1) mod n)) as [Hafter Hrows].
    { apply Z.mod_pos_bound. lia. }
    simpl. unfold next_row. rewrite Hafter, Hrows. split.
    + rewrite Zplus_mod_idemp_l. f_equal. lia.
    + f_equal.
      * rewrite Z.add_0_r. by rewrite Z.mod_small.
      * rewrite <- fmap_S_seq, <- list_fmap_compose.
        apply list_fmap_ext. intros _ i _. simpl.
        rewrite Zplus_mod_idemp_l. f_equal. lia.
Qed.

Lemma rows_stop (n : Z) (times : nat) :
  forall row, 0 <= row < n ->
    row_after Stop n times row = Z.min (row + Z.of_nat times) (n - 1) /\
    rows_visited Stop n times row =
      (fun i : nat => Z.min (row + Z.of_nat i) (n - 1)) <$> seq 0 times.
Proof.
  induction times as [|times IH]; intros row Hrow.
  - simpl. split; [lia | done].
  - destruct (IH (next_row Stop n row)) as [Hafter Hrows].
    { by apply next_row_in_range. }
    cbn [row_after rows_visited]. rewrite Hafter, Hrows. unfold next_row. split.
    + case_decide; lia.
    + change (seq 0 (S times)) with (0%nat :: seq 1 times).
      rewrite fmap_cons. f_equal; [lia |].
      rewrite <- fmap_S_seq, <- list_fmap_compose.
      apply list_fmap_ext. intros _ i _. simpl. case_decide; lia.
Qed.

(** X3: under [Restart], with auto-continue on and a valid selection at row
    [k], pressing GO [times] times executes the cues at rows [k], [k+1], ...
    taken modulo the length -- the show starts over after its last cue --
    each followed by its [cue_executed] signal, and leaves the selection at
    row [(k + times) mod length]. No press fails. *)
Theorem go_times_restart (l : ListLayout) (times : nat) :
  view_synced l ->
  _auto_continue l = true ->
  _end_list l = Restart ->
  0 <= current_index l < len (_model_adapter l) ->
  exists l',
    go_times times l = (Return tt, l') /\
    current_index l' =
      (current_index l + Z.of_nat times) mod len (_model_adapter l) /\
    events l' =
      events l ++
      go_receipts (_model_adapter l)
        ((fun i : nat =>
            (current_index l + Z.of_nat i) mod len (_model_adapter l))
           <$> seq 0 times).
Proof.
  intros Hsync Hauto He Hrow.
  destruct (go_times_rows times l Hsync Hauto Hrow)
    as (l' & Htimes & _ & Hrow' & Hev').
  destruct (rows_restart _ times _ Hrow) as [Hafter Hrows].
  rewrite He in Hrow', Hev'. rewrite Hafter in Hrow'. rewrite Hrows in Hev'.
  by exists l'.
Qed.

(** X4: under [Stop], with auto-continue on and a valid selection at row
    [k], pressing GO [times] times executes the cues at rows [k], [k+1], ...
    up to the last one and from then on the last cue again at every press:
    the selection stops at row [length - 1] and is never cleared. *)
Theorem go_times_stop (l : ListLayout) (times : nat) :
  view_synced l ->
  _auto_continue l = true ->
  _end_list l = Stop ->
  0 <= current_index l < len (_model_adapter l) ->
  exists l',
    go_times times l = (Return tt, l') /\
    current_index l' =
      Z.min (current_index l + Z.of_nat times) (len (_model_adapter l) - 1) /\
    events l' =
      events l ++
      go_receipts (_model_adapter l)
        ((fun i : nat =>
            Z.min (current_index l + Z.of_nat i) (len (_model_adapter l) - 1))
           <$> seq 0 times).
Proof.
  intros Hsync Hauto He Hrow.
  destruct (go_times_rows times l Hsync Hauto Hrow)
    as (l' & Htimes & _ & Hrow' & Hev').
  destruct (rows_stop _ times _ Hrow) as [Hafter Hrows].
  rewrite He in Hrow', Hev'. rewrite Hafter in Hrow'. rewrite Hrows in Hev'.
  by exists l'.
Qed.

Section CueNextThenGo.

Variable get : list Cue -> Z -> outcome Cue.
Hypothesis get_hit :
  forall m i c, item m i = Some c -> get m i = Return c.

(** X5: when a cue finishes while auto-continue is on and the cue after it
    is the current one, the handler executes that cue and moves the
    selection past it, so that the next GO executes the cue after it and
    does not trigger the auto-started cue a second time. *)
Theorem cue_next_then_go (l : ListLayout) (c next_cue c2 : Cue)
    (action : CueAction) (advance : Z) :
  view_synced l ->
  _auto_continue l = true ->
  item (_model_adapter l) (index c + 1) = Some next_cue ->
  current_cue l = Some next_cue ->
  item (_model_adapter l) (index c + 2) = Some c2 ->
  exists l1 l2,
    __cue_next get c l = (Return tt, l1) /\
    current_index l1 = index c + 2 /\
    go action advance l1 = (Return tt, l2) /\
    events l2 =
      events l ++
      [CueExecute next_cue None; CueExecute c2 (Some action); CueExecutedEmit c2].
Proof.
  intros Hsync Hauto Hnext Hcur Hc2.
  pose proof (item_Some_range _ _ _ Hnext) as Hr1.
  pose proof (item_Some_range _ _ _ Hc2) as Hr2.
  set (l0 := emit (CueExecute next_cue None) l).
  set (l1 := setCurrentItem (index c + 2) l0).
  assert (__cue_next get c l = (Return tt, l1)) as Hnext_run.
  { unfold __cue_next, try_except. cbn zeta.
    rewrite decide_True by lia.
    unfold bind, lift, modify. rewrite (get_hit _ _ _ Hnext).
    cbn [_auto_continue emit]. rewrite current_cue_emit, Hauto, Hcur.
    rewrite bool_decide_eq_true_2 by done. cbn [andb].
    fold l0. replace (index c + 1 + 1) with (index c + 2) by lia.
    assert (view_synced l0) as Hsync0 by done.
    destruct (_end_list l) eqn:He.
    - rewrite (set_current_index_stop_synced l0 _ Hsync0 He).
      change (_model_adapter l0) with (_model_adapter l).
      by rewrite decide_True by lia.
    - rewrite (set_current_index_restart_synced l0 _ Hsync0 He)
        by (change (_model_adapter l0) with (_model_adapter l); lia).
      change (_model_adapter l0) with (_model_adapter l).
      by rewrite Z.mod_small by lia. }
  assert (current_cue l1 = Some c2) as Hcur1 by exact Hc2.
  set (l2 := emit (CueExecutedEmit c2) (emit (CueExecute c2 (Some action)) l1)).
  destruct (set_current_index_returns l2 (current_index l2 + advance))
    as (l3 & Hset & Hev & _).
  { change (_model_adapter l2) with (_model_adapter l).
    intros Hnil. rewrite Hnil in Hr2. unfold len in Hr2. simpl in Hr2. lia. }
  exists l1, l3. split; [done |]. split; [done |].
  unfold go. rewrite Hcur1. unfold bind, modify. cbn zeta.
  cbn [_auto_continue emit].
  change (_auto_continue l1) with (_auto_continue l). rewrite Hauto. fold l2.
  split; [exact Hset |].
  rewrite Hev. simpl. by rewrite <- !app_assoc.
Qed.

End CueNextThenGo.

(** X6: the end-of-list option is read from the configuration without ever
    raising [ValueError]: the value ["Restart"], spelled exactly so, gives
    [Restart] and any other value gives [Stop]; a missing option is not
    defaulted and raises [KeyError]. Storing the value of a behaviour and
    reading it back gives that behaviour. *)
Theorem init_end_list_spec (config_ListLayout : gmap string string) :
  init_end_list config_ListLayout =
    match config_ListLayout !! "EndList" with
    | Some value => Return (if decide (value = "Restart") then Restart else Stop)
    | None => Raise KeyError
    end /\
  forall b : EndListBehavior,
    init_end_list (<["EndList" := EndListBehavior_value b]> config_ListLayout) =
      Return b.
Proof.
  assert (forall cfg : gmap string string,
            init_end_list cfg =
              match cfg !! "EndList" with
              | Some value =>
                  Return (if decide (value = "Restart") then Restart else Stop)
              | None => Raise KeyError
              end) as Hread.
  { intros cfg.
    unfold init_end_list, try_except, bind, lift, config_getitem.
    destruct (cfg !! "EndList") as [value|]; [| done].
    unfold EndListBehavior_of_value.
    destruct (decide (value = "Stop")) as [->|]; [done |].
    by destruct (decide (value = "Restart")). }
  split; [apply Hread |].
  intros b. rewrite Hread, lookup_insert_eq. by destruct b.
Qed.

(** ** Selecting cues *)

Section SelectionProperties.

Context {CueClass : Type}.
Variable isinstance_cue : Cue -> CueClass -> bool.
Variable model_item : list Cue -> Z -> outcome Cue.

(** Inside the list, the adapter's [item] gives the cue at the position. *)
Hypothesis model_item_hit :
  forall m i c, item m i = Some c -> model_item m i = Return c.

Local Abbreviation selected_cues := (get_selected_cues isinstance_cue).
Local Abbreviation with_class := (select_class isinstance_cue).

Lemma get_selected_cues_filter (cue_class : CueClass) (items : list CueListItem) :
  selected_cues cue_class items =
    cue <$> filter (fun it => selected it = true /\
                              isinstance_cue (cue it) cue_class = true) items.
Proof.
  induction items as [|it rest IH]; [done |].
  simpl. rewrite filter_cons.
  destruct (decide (selected it = true /\
                    isinstance_cue (cue it) cue_class = true)) as [[-> ->]|Hn].
  - simpl. by rewrite IH.
  - destruct (selected it), (isinstance_cue (cue it) cue_class); simpl;
      try done.
    by destruct Hn.
Qed.

(** X7: [get_selected_cues] gives the cues of the items that are selected
    and of the class, in the order of the list, and nothing else. *)
Theorem get_selected_cues_spec (cue_class : CueClass)
    (items : list CueListItem) :
  selected_cues cue_class items `sublist_of` (cue <$> items) /\
  forall c,
    c ∈ selected_cues cue_class items <->
    exists it, it ∈ items /\ cue it = c /\ selected it = true /\
               isinstance_cue c cue_class = true.
Proof.
  rewrite get_selected_cues_filter. split.
  - apply fmap_sublist, sublist_filter.
  - intros c. rewrite list_elem_of_fmap. split.
    + intros (it & -> & Hin). apply list_elem_of_filter in Hin as [[Hs Hi] Hin].
      by exists it.
    + intros (it & Hin & <- & Hs & Hi). exists it. split; [done |].
      by apply list_elem_of_filter.
Qed.

Lemma cue_set_selected (value : bool) (it : CueListItem) :
  cue (set_selected value it) = cue it.
Proof. done. Qed.

Lemma cue_with_class (value : bool) (cue_class : CueClass) (it : CueListItem) :
  cue (with_class value cue_class it) = cue it.
Proof. unfold select_class. by destruct (isinstance_cue _ _). Qed.

Lemma with_class_idemp (value : bool) (cue_class : CueClass) (it : CueListItem) :
  with_class value cue_class (with_class value cue_class it) =
    with_class value cue_class it.
Proof.
  unfold select_class. destruct (isinstance_cue (cue it) cue_class) eqn:Hi.
  - simpl. by rewrite Hi.
  - by rewrite Hi.
Qed.

Lemma fmap_cue_alter (value : bool) (index : nat) (items : list CueListItem) :
  cue <$> alter (set_selected value) index items = cue <$> items.
Proof.
  apply list_eq. intros j. rewrite !list_lookup_fmap.
  destruct (decide (index = j)) as [->|Hne].
  - rewrite list_lookup_alter_eq. by destruct (items !! j).
  - by rewrite list_lookup_alter_ne.
Qed.

(** The loop over any indexes of the view changes the items at those
    indexes, and only those, the way [select_class] says. *)
Lemma selection_loop_lookup (value : bool) (cue_class : CueClass)
    (model : list Cue) (indexes : list nat) :
  forall items : list CueListItem,
    cue <$> items = model ->
    (forall i, i ∈ indexes -> (i < length items)%nat) ->
    exists items',
      selection_loop isinstance_cue model_item value cue_class model indexes
        items = (Return tt, items') /\
      cue <$> items' = model /\
      forall j,
        items' !! j =
          if decide (j ∈ indexes)
          then with_class value cue_class <$> items !! j
          else items !! j.
Proof.
  induction indexes as [|index rest IH]; intros items Hcues Hin.
  - exists items. split; [done |]. split; [done |].
    intros j. rewrite decide_False; [done | apply not_elem_of_nil].
  - destruct (lookup_lt_is_Some_2 items index) as [it Hit].
    { apply Hin. left. }
    assert (model_item model (Z.of_nat index) = Return (cue it)) as Hitem.
    { apply model_item_hit. unfold item. rewrite decide_True by lia.
      rewrite Nat2Z.id, <- Hcues, list_lookup_fmap. by rewrite Hit. }
    simpl. unfold bind at 1. unfold lift. rewrite Hitem.
    destruct (isinstance_cue (cue it) cue_class) eqn:Hclass.
    + destruct (IH (alter (set_selected value) index items))
        as (items' & Hloop & Hcues' & Hlook).
      { by rewrite fmap_cue_alter. }
      { intros i Hi. rewrite length_alter. apply Hin. by right. }
      exists items'. split; [| split; [done |]].
      * unfold bind, modify. exact Hloop.
      * intros j. rewrite Hlook.
        destruct (decide (j = index)) as [->|Hne].
        -- rewrite list_lookup_alter_eq, Hit. simpl.
           rewrite (decide_True (P := index ∈ index :: rest)) by left.
           assert (with_class value cue_class it = set_selected value it) as Hw.
           { unfold select_class. by rewrite Hclass. }
           rewrite Hw.
           assert (with_class value cue_class (set_selected value it) =
                   set_selected value it) as Hw'.
           { rewrite <- Hw. apply with_class_idemp. }
           rewrite Hw'. by case_decide.
        -- rewrite list_lookup_alter_ne by done.
           destruct (decide (j ∈ rest)) as [Hj|Hj].
           ++ rewrite decide_True; [done | by right].
           ++ rewrite decide_False; [done |].
              intros [?|?]%elem_of_cons; done.
    + destruct (IH items) as (items' & Hloop & Hcues' & Hlook).
      { done. }
      { intros i Hi. apply Hin. by right. }
      exists items'. split; [| split; [done |]].
      * unfold bind, ret. exact Hloop.
      * intros j. rewrite Hlook.
        destruct (decide (j = index)) as [->|Hne].
        -- rewrite (decide_True (P := index ∈ index :: rest)) by left.
           rewrite Hit. simpl.
           assert (with_class value cue_class it = it) as ->.
           { unfold select_class. by rewrite Hclass. }
           by case_decide.
        -- destruct (decide (j ∈ rest)) as [Hj|Hj].
           ++ rewrite decide_True; [done | by right].
           ++ rewrite decide_False; [done |].
              intros [?|?]%elem_of_cons; done.
Qed.

Lemma selection_loop_all (value : bool) (cue_class : CueClass)
    (items : list CueListItem) :
  selection_loop isinstance_cue model_item value cue_class (cue <$> items)
    (seq 0 (length items)) items =
    (Return tt, with_class value cue_class <$> items).
Proof.
  destruct (selection_loop_lookup value cue_class (cue <$> items)
              (seq 0 (length items)) items eq_refl)
    as (items' & Hloop & _ & Hlook).
  { intros i Hi%elem_of_seq. lia. }
  rewrite Hloop. f_equal. apply list_eq. intros j. rewrite Hlook.
  rewrite list_lookup_fmap. case_decide as Hj; [done |].
  rewrite elem_of_seq in Hj.
  rewrite lookup_ge_None_2 by lia. done.
Qed.

Lemma selected_cues_with_class_true (cue_class : CueClass)
    (items : list CueListItem) :
  selected_cues cue_class (with_class true cue_class <$> items) =
    filter (fun c => isinstance_cue c cue_class = true) (cue <$> items).
Proof.
  induction items as [|it rest IH]; [done |].
  rewrite !fmap_cons, filter_cons. simpl. rewrite cue_with_class.
  unfold select_class at 1.
  destruct (decide (isinstance_cue (cue it) cue_class = true)) as [Hi|Hi].
  - rewrite Hi. simpl. by rewrite IH.
  - apply not_true_is_false in Hi. rewrite Hi, andb_false_r. exact IH.
Qed.

Lemma selected_cues_with_class_false (cue_class other : CueClass)
    (items : list CueListItem) :
  selected_cues other (with_class false cue_class <$> items) =
    filter (fun c => isinstance_cue c cue_class = false)
      (selected_cues other items).
Proof.
  induction items as [|it rest IH]; [done |].
  rewrite fmap_cons. simpl. rewrite cue_with_class.
  unfold select_class at 1.
  destruct (isinstance_cue (cue it) cue_class) eqn:Hi; simpl.
  - destruct (selected it && isinstance_cue (cue it) other).
    + rewrite filter_cons.
      destruct (decide (isinstance_cue (cue it) cue_class = false));
        [congruence | exact IH].
    + exact IH.
  - destruct (selected it && isinstance_cue (cue it) other).
    + rewrite filter_cons.
      destruct (decide (isinstance_cue (cue it) cue_class = false));
        [by rewrite IH | done].
    + exact IH.
Qed.

(** X8: with the view showing the cues of the model, [select_all] for a
    class never fails, sets the flag of exactly the items whose cue is of
    the class and leaves the other flags alone; afterwards
    [get_selected_cues] for that class gives every cue of the class, in
    list order. *)
Theorem select_all_spec (cue_class : CueClass) (model : list Cue)
    (items : list CueListItem) :
  cue <$> items = model ->
  select_all isinstance_cue model_item cue_class model items =
    (Return tt, with_class true cue_class <$> items) /\
  selected_cues cue_class (with_class true cue_class <$> items) =
    filter (fun c => isinstance_cue c cue_class = true) model.
Proof.
  intros <-. split.
  - apply selection_loop_all.
  - apply selected_cues_with_class_true.
Qed.

(** X9: with the view showing the cues of the model, [deselect_all] for a
    class never fails and clears the flag of exactly the items whose cue
    is of the class: no cue of that class is selected afterwards, and for
    any class the selected cues are those selected before that are not of
    the deselected class. *)
Theorem deselect_all_spec (cue_class : CueClass) (model : list Cue)
    (items : list CueListItem) :
  cue <$> items = model ->
  deselect_all isinstance_cue model_item cue_class model items =
    (Return tt, with_class false cue_class <$> items) /\
  selected_cues cue_class (with_class false cue_class <$> items) = [] /\
  forall other,
    selected_cues other (with_class false cue_class <$> items) =
      filter (fun c => isinstance_cue c cue_class = false)
        (selected_cues other items).
Proof.
  intros <-. split; [apply selection_loop_all |].
  split; [| intros other; apply selected_cues_with_class_false].
  rewrite selected_cues_with_class_false.
  induction items as [|it rest IH]; [done |].
  simpl. destruct (selected it && isinstance_cue (cue it) cue_class) eqn:Hs;
    [| exact IH].
  apply andb_true_iff in Hs as [_ Hi].
  rewrite filter_cons.
  destruct (decide (isinstance_cue (cue it) cue_class = false));
    [congruence | exact IH].
Qed.

(** X10: [invert_selection] keeps the cues and their order, undoes itself
    when applied twice, and turns the selection of a class into its
    complement within the class: the cues of the class selected afterwards
    are those that were not selected before. *)
Theorem invert_selection_spec (cue_class : CueClass)
    (items : list CueListItem) :
  invert_selection (invert_selection items) = items /\
  cue <$> invert_selection items = cue <$> items /\
  selected_cues cue_class (invert_selection items) =
    cue <$> filter (fun it => selected it = false /\
                              isinstance_cue (cue it) cue_class = true) items.
Proof.
  unfold invert_selection. split; [| split].
  - rewrite <- list_fmap_compose. rewrite <- (list_fmap_id items) at 2.
    apply list_fmap_ext. intros _ [c s] _. simpl. unfold set_selected. simpl.
    by rewrite negb_involutive.
  - rewrite <- list_fmap_compose. by apply list_fmap_ext.
  - induction items as [|it rest IH]; [done |].
    rewrite fmap_cons, filter_cons. simpl.
    destruct (decide (selected it = false /\
                      isinstance_cue (cue it) cue_class = true)) as [[-> ->]|Hn].
    + simpl. by rewrite IH.
    + destruct (selected it), (isinstance_cue (cue it) cue_class); simpl;
        try exact IH.
      by destruct Hn.
Qed.

End SelectionProperties.

(** * Further properties of the decorators *)

(** ** Lock names *)

Lemma string_length_append (s1 s2 : string) :
  String.length (s1 +:+ s2) = (String.length s1 + String.length s2)%nat.
Proof.
  induction s1 as [|a s1 IH]; [done |].
  change (String a s1 +:+ s2) with (String a (s1 +:+ s2)).
  cbn [String.length plus]. by rewrite IH.
Qed.

Lemma string_append_cancel_r (s1 s2 t : string) :
  s1 +:+ t = s2 +:+ t -> s1 = s2.
Proof.
  revert s2. induction s1 as [|a s1 IH]; intros [|b s2] Heq.
  - done.
  - apply (f_equal String.length) in Heq.
    rewrite !string_length_append in Heq. simpl in Heq. lia.
  - apply (f_equal String.length) in Heq.
    rewrite !string_length_append in Heq. simpl in Heq. lia.
  - change (String a (s1 +:+ t) = String b (s2 +:+ t)) in Heq.
    injection Heq as -> Heq. f_equal. by apply IH.
Qed.

Lemma resolved_lock_name_names (name1 name2 : string) :
  resolved_lock_name name1 None = resolved_lock_name name2 None <->
  name1 = name2.
Proof.
  split; [| by intros ->].
  unfold resolved_lock_name. intros Heq.
  simpl in Heq. injection Heq as Heq.
  change (name1 +:+ "_lock__" = name2 +:+ "_lock__") in Heq.
  by apply string_append_cancel_r in Heq.
Qed.

(** X11: a method decorated without [lock_name] gets the lock attribute
    ["__" + name + "_lock__"]; two such methods use the same attribute only
    if they have the same name, and an explicit [lock_name] is used as it
    is, so two methods given the same one share the attribute whatever
    their names. *)
Theorem resolved_lock_name_spec (name1 name2 shared : string) :
  (resolved_lock_name name1 None = resolved_lock_name name2 None <->
   name1 = name2) /\
  resolved_lock_name name1 (Some shared) =
    resolved_lock_name name2 (Some shared) /\
  resolved_lock_name name1 None = "__" +:+ name1 +:+ "_lock__".
Proof.
  split; [apply resolved_lock_name_names | done].
Qed.

(** ** Methods and their locks *)

Section MethodLocks.

Context {A R St : Type}.
Variables targetA targetB : A -> Py (@MethWorld St) R.
Variables nameA nameB : string.

(** X12: two methods of one object decorated with the same [lock_name]
    exclude each other. Thread [t1] calls the first and gets the lock: its
    body starts in the world [inside], where the lock the shared attribute
    refers to is owned by [t1]. A call of the second method by another
    thread in that world returns [None], without running its body and
    leaving the world as it is, if it is non-blocking or its timeout
    elapses, and does not return if it waits without limit. *)
Theorem shared_lock_name_excludes (shared : string)
    (blockingA blockingB : bool) (timeoutA timeoutB : Z)
    (t1 t2 : thread) (argsA argsB : A) (w wc : MethWorld) (l : loc)
    (lk : RLock) :
  t1 <> t2 ->
  _synchronized_meta_lock w = false ->
  get_or_create_lock (resolved_lock_name nameA (Some shared)) w = (l, wc) ->
  RLock_acquire t1 blockingA timeoutA (lock_state l wc) =
    Some (Return true, lk) ->
  let inside := set_lock_state l lk wc in
  (exists o w1 w',
     targetA argsA inside = (o, w1) /\
     synchronized_method_wrapped targetA nameA (Some shared) blockingA
       timeoutA t1 argsA w = Some (outcome_some o, w')) /\
  (self_attrs inside !! shared = Some l /\
   exists n, lock_state l inside = Locked t1 n) /\
  (gives_up blockingB timeoutB ->
   synchronized_method_wrapped targetB nameB (Some shared) blockingB timeoutB
     t2 argsB inside = Some (Return None, inside)) /\
  synchronized_method_wrapped targetB nameB (Some shared) true (-1)
    t2 argsB inside = None.
Proof.
  intros Hne Hmeta Hget Hacq inside.
  destruct (get_or_create_lock_attr _ _ _ _ Hget) as (Hattr & Hmeta' & _).
  destruct (RLock_acquire_owner _ _ _ _ _ Hacq) as [n ->].
  change (resolved_lock_name nameA (Some shared)) with shared in Hattr.
  assert (self_attrs inside !! shared = Some l) as Hattr' by done.
  assert (lock_objects inside !! l = Some (Locked t1 n)) as Hlk.
  { unfold inside. simpl. apply lookup_insert_eq. }
  assert (lock_state l inside = Locked t1 n) as Hstate.
  { unfold lock_state. by rewrite Hlk. }
  assert (_synchronized_meta_lock inside = false) as Hmeta''.
  { unfold inside. simpl. congruence. }
  split; [| split; [| split]].
  - destruct (targetA argsA inside) as [o w1] eqn:Hrun.
    eexists o, w1, _. split; [done |].
    rewrite (synchronized_method_acquired targetA nameA (Some shared)
               blockingA timeoutA t1 argsA w wc l _ Hmeta Hget Hacq).
    fold inside. by rewrite Hrun.
  - split; [done |]. by exists n.
  - intros Hg.
    by apply (synchronized_method_gives_up targetB nameB (Some shared)
                blockingB timeoutB t2 t1 n argsB inside l).
  - apply (synchronized_method_waits targetB nameB (Some shared) true (-1)
             t2 argsB inside inside l); [done | |].
    + unfold get_or_create_lock.
      change (resolved_lock_name nameB (Some shared)) with shared.
      by rewrite Hattr'.
    + rewrite Hstate. by apply RLock_acquire_waits.
Qed.

(** X13: methods decorated without [lock_name] do not hold each other up
    unless they have the same name. On an object that has neither lock
    attribute yet, thread [t1] calls the first method and is inside its
    body, in the world [inside]; a call of the second method by any thread
    in that world makes a lock of its own, another object than the lock of
    the first, gets it at once and runs its body, during which the lock of
    the first method is still held by [t1]; the wrapper's release leaves
    the lock of the first method as the body left it. *)
Theorem generated_lock_names_independent (blocking : bool) (timeout : Z)
    (t1 t2 : thread) (args : A) (w : MethWorld) :
  nameA <> nameB ->
  valid_acquire_args blocking timeout ->
  _synchronized_meta_lock w = false ->
  self_attrs w !! resolved_lock_name nameA None = None ->
  self_attrs w !! resolved_lock_name nameB None = None ->
  let lA := (get_or_create_lock (resolved_lock_name nameA None) w).1 in
  let inside :=
    set_lock_state lA (Locked t1 0)
      (get_or_create_lock (resolved_lock_name nameA None) w).2 in
  exists lB w0 o w1 w',
    lB <> lA /\
    (self_attrs w0 !! resolved_lock_name nameA None = Some lA /\
     self_attrs w0 !! resolved_lock_name nameB None = Some lB /\
     lock_state lA w0 = Locked t1 0 /\
     lock_state lB w0 = Locked t2 0) /\
    targetB args w0 = (o, w1) /\
    synchronized_method_wrapped targetB nameB None blocking timeout t2 args
      inside = Some (outcome_some o, w') /\
    lock_state lA w' = lock_state lA w1 /\
    lock_state lB w' = (RLock_release t2 (lock_state lB w1)).2.
Proof.
  intros Hne Hvalid Hmeta HnoA HnoB lA inside.
  assert (resolved_lock_name nameA None <> resolved_lock_name nameB None)
    as Hnames.
  { intros Heq. apply Hne.
    by apply (proj1 (resolved_lock_name_names nameA nameB)). }
  assert (self_attrs inside =
            <[resolved_lock_name nameA None := lA]> (self_attrs w)) as Hattrs.
  { unfold inside, lA, get_or_create_lock. by rewrite HnoA. }
  assert (is_Some (lock_objects inside !! lA)) as HobjA.
  { unfold inside. simpl. rewrite lookup_insert_eq. eauto. }
  assert (lock_state lA inside = Locked t1 0) as HstateA.
  { unfold inside. apply lock_state_set_lock_state_same. }
  assert (_synchronized_meta_lock inside = false) as Hmeta'.
  { unfold inside, get_or_create_lock. rewrite HnoA. simpl. done. }
  assert (self_attrs inside !! resolved_lock_name nameB None = None) as HnoB'.
  { rewrite Hattrs. by rewrite lookup_insert_ne. }
  destruct (get_or_create_lock (resolved_lock_name nameB None) inside)
    as [lB wc] eqn:Hget.
  assert (lB = new_object inside /\
          self_attrs wc =
            <[resolved_lock_name nameB None := lB]> (self_attrs inside) /\
          lock_objects wc = <[lB := Unlocked]> (lock_objects inside))
    as (HlB & HattrsB & HobjsB).
  { unfold get_or_create_lock in Hget. rewrite HnoB' in Hget.
    by injection Hget as <- <-. }
  assert (lB <> lA) as HneAB.
  { intros Heq. destruct (new_object_fresh inside) as [Hnew _].
    rewrite <- HlB, Heq in Hnew. rewrite Hnew in HobjA.
    by destruct HobjA. }
  assert (lock_state lB wc = Unlocked) as HfreeB.
  { unfold lock_state. rewrite HobjsB. by rewrite lookup_insert_eq. }
  assert (lock_state lA wc = Locked t1 0) as HstateA'.
  { unfold lock_state. rewrite HobjsB. rewrite lookup_insert_ne by done.
    exact HstateA. }
  assert (RLock_acquire t2 blocking timeout (lock_state lB wc) =
            Some (Return true, Locked t2 0)) as Hacq.
  { rewrite HfreeB. by apply RLock_acquire_free. }
  destruct (synchronized_method_enters targetB nameB None blocking timeout
              t2 args inside wc lB _ Hmeta' Hget Hacq)
    as (w0 & o & w1 & w' & (Ha0 & Hl0 & Hattrs0 & _ & Hothers0) & Hbody & Hw
        & (Hl & _ & _ & Hothers) & _).
  exists lB, w0, o, w1, w'. split; [done |]. split; [| split; [done |]].
  - split; [| split; [done |]; split; [| done]].
    + rewrite Hattrs0, HattrsB, Hattrs.
      rewrite lookup_insert_ne by done. by rewrite lookup_insert_eq.
    + rewrite Hothers0 by done. exact HstateA'.
  - split; [done |]. split; [| done]. apply Hothers. by intros ->.
Qed.

End MethodLocks.

Section LockLifecycle.

Context {A R St : Type}.
Variable ftarget : A -> Py (@FunWorld St) R.
Variable mtarget : A -> Py (@MethWorld St) R.
Variable target___name__ : string.
Variable lock_name : option string.
Variables (blocking : bool) (timeout : Z).

Local Abbreviation name := (resolved_lock_name target___name__ lock_name).

(** X14: the method wrapper makes the lock on first use, and only then.
    A first call, on an object that does not have the attribute yet, gets
    in at once for every valid option combination: the lock is a new
    object, one that was not there and that no attribute referred to; the
    attribute is set to it before the body runs, the other attributes and
    lock objects are as they were, and the body starts with the new lock
    held once by the caller. A call on an object that has the attribute
    sets no attribute and touches no other lock object. After the body the
    wrapper sets no attribute: the attributes with which it returns are
    those the body left. *)
Theorem synchronized_method_lock_attribute (me : thread) (args : A)
    (w : MethWorld) :
  _synchronized_meta_lock w = false ->
  valid_acquire_args blocking timeout ->
  (self_attrs w !! name = None ->
   exists l w0 o w1 w',
     (lock_objects w !! l = None /\
      forall other, self_attrs w !! other <> Some l) /\
     (self_attrs w0 = <[name := l]> (self_attrs w) /\
      lock_state l w0 = Locked me 0 /\
      (forall l', l' <> l -> lock_objects w0 !! l' = lock_objects w !! l') /\
      meth_state w0 = meth_state w) /\
     mtarget args w0 = (o, w1) /\
     synchronized_method_wrapped mtarget target___name__ lock_name blocking
       timeout me args w = Some (outcome_some o, w') /\
     self_attrs w' = self_attrs w1) /\
  (forall l lk r w',
     self_attrs w !! name = Some l ->
     RLock_acquire me blocking timeout (lock_state l w) =
       Some (Return true, lk) ->
     synchronized_method_wrapped mtarget target___name__ lock_name blocking
       timeout me args w = Some (r, w') ->
     exists w0 o w1,
       (self_attrs w0 = self_attrs w /\
        lock_state l w0 = lk /\
        forall l', l' <> l -> lock_objects w0 !! l' = lock_objects w !! l') /\
       mtarget args w0 = (o, w1) /\
       r = outcome_some o /\
       self_attrs w' = self_attrs w1).
Proof.
  intros Hmeta Hvalid. split.
  - intros Hnone.
    set (l := new_object w).
    set (wc := {| _synchronized_meta_lock := _synchronized_meta_lock w;
                  self_attrs := <[name := l]> (self_attrs w);
                  lock_objects := <[l := Unlocked]> (lock_objects w);
                  meth_state := meth_state w |}).
    assert (get_or_create_lock name w = (l, wc)) as Hget.
    { unfold get_or_create_lock. by rewrite Hnone. }
    assert (RLock_acquire me blocking timeout (lock_state l wc)
            = Some (Return true, Locked me 0)) as Hacq.
    { unfold lock_state, wc. simpl. rewrite lookup_insert_eq. simpl.
      by apply RLock_acquire_free. }
    destruct (mtarget args (set_lock_state l (Locked me 0) wc))
      as [o w1] eqn:Hrun.
    exists l, (set_lock_state l (Locked me 0) wc), o, w1,
      (set_lock_state l (RLock_release me (lock_state l w1)).2 w1).
    split; [apply new_object_fresh |].
    split; [| split; [done |]; split; [| done]].
    + split; [done |]. split; [apply lock_state_set_lock_state_same |].
      split; [| done]. intros l' Hne. simpl.
      by rewrite !lookup_insert_ne.
    + rewrite (synchronized_method_acquired mtarget target___name__
                 lock_name blocking timeout me args w wc l _
                 Hmeta Hget Hacq).
      by rewrite Hrun.
  - intros l lk r w' Hattr Hacq Hw.
    assert (get_or_create_lock name w = (l, w)) as Hget.
    { unfold get_or_create_lock. by rewrite Hattr. }
    revert Hw.
    rewrite (synchronized_method_acquired mtarget target___name__ lock_name
               blocking timeout me args w w l _ Hmeta Hget Hacq).
    destruct (mtarget args (set_lock_state l lk w)) as [o w1] eqn:Hrun.
    intros [= <- <-].
    exists (set_lock_state l lk w), o, w1.
    split; [| done]. split; [done |].
    split; [apply lock_state_set_lock_state_same |].
    intros l' Hne. simpl. by rewrite lookup_insert_ne.
Qed.

(** X15: a thread that holds the lock can call the wrapped function or
    method again with any valid option combination: the call never waits
    and never gives up, the body runs with the lock held one level deeper
    than before the call, and if the body leaves the lock as it got it,
    the lock is back at the level of before the call once the wrapper is
    done. *)
Theorem synchronized_reentrant (me : thread) (args : A) (n : nat) :
  valid_acquire_args blocking timeout ->
  (forall w : FunWorld,
     __lock__ w = Locked me n ->
     exists w0 o w1 w',
       __lock__ w0 = Locked me (S n) /\ fun_state w0 = fun_state w /\
       ftarget args w0 = (o, w1) /\
       synchronized ftarget blocking timeout me args w =
         Some (outcome_some o, w') /\
       __lock__ w' = (RLock_release me (__lock__ w1)).2 /\
       fun_state w' = fun_state w1 /\
       (__lock__ w1 = Locked me (S n) -> __lock__ w' = Locked me n)) /\
  (forall (w : MethWorld) l,
     _synchronized_meta_lock w = false ->
     self_attrs w !! name = Some l ->
     lock_objects w !! l = Some (Locked me n) ->
     exists w0 o w1 w',
       lock_state l w0 = Locked me (S n) /\
       self_attrs w0 = self_attrs w /\ meth_state w0 = meth_state w /\
       mtarget args w0 = (o, w1) /\
       synchronized_method_wrapped mtarget target___name__ lock_name blocking
         timeout me args w = Some (outcome_some o, w') /\
       lock_state l w' = (RLock_release me (lock_state l w1)).2 /\
       self_attrs w' = self_attrs w1 /\ meth_state w' = meth_state w1 /\
       (lock_state l w1 = Locked me (S n) -> lock_state l w' = Locked me n)).
Proof.
  intros Hvalid.
  pose proof (RLock_acquire_held me blocking timeout n Hvalid) as Hacq.
  split.
  - intros w Hlk. rewrite <- Hlk in Hacq.
    destruct (synchronized_enters ftarget blocking timeout me args w _ Hacq)
      as (w0 & o & w1 & w' & H0 & Hs0 & Hbody & Hw & Hl & Hs & Hback).
    exists w0, o, w1, w'.
    split; [done |]. split; [done |]. split; [done |]. split; [done |].
    split; [done |]. split; [done |].
    intros Hkept. rewrite <- Hlk. by apply Hback.
  - intros w l Hmeta Hattr Hlk.
    assert (lock_state l w = Locked me n) as Hof.
    { unfold lock_state. by rewrite Hlk. }
    rewrite <- Hof in Hacq.
    assert (get_or_create_lock name w = (l, w)) as Hget.
    { unfold get_or_create_lock. by rewrite Hattr. }
    destruct (synchronized_method_enters mtarget target___name__ lock_name
                blocking timeout me args w w l _ Hmeta Hget Hacq)
      as (w0 & o & w1 & w' & (_ & Hl0 & Ha0 & Hs0 & _) & Hbody & Hw
          & (Hl & Ha & Hs & _) & Hback).
    exists w0, o, w1, w'.
    split; [done |]. split; [done |]. split; [done |]. split; [done |].
    split; [done |]. split; [done |]. split; [done |]. split; [done |].
    intros Hkept. rewrite <- Hof. by apply Hback.
Qed.

(** X16: a function decorated with [blocking=False] together with a
    timeout can never be entered: every call by a thread that does not
    hold the lock raises the error of [acquire] -- [OverflowError] for an
    integer timeout beyond [threading.TIMEOUT_MAX] of either sign, else
    the [ValueError] about a timeout in a non-blocking call -- the body is
    not run and the world, the lock included, stays as it was; the failed
    release of the [finally] clause does not hide that error. *)
Theorem synchronized_rejects_timeout_without_blocking (me : thread) (args : A)
    (w : FunWorld) :
  blocking = false ->
  timeout <> -1 ->
  holds me (__lock__ w) = O ->
  synchronized ftarget blocking timeout me args w =
    Some (Raise (if TIMEOUT_MAX <? Z.abs timeout then OverflowError
                 else ValueError
                        "can't specify a timeout for a non-blocking call"),
          w).
Proof.
  intros -> Ht Hfree. unfold synchronized, RLock_acquire.
  assert (exists msg, RLock_release me (__lock__ w) =
                        (Raise (RuntimeError msg), __lock__ w)) as [msg Hrel].
  { unfold RLock_release. destruct (__lock__ w) as [|o k]; [eauto |].
    simpl in Hfree. case_decide; [done | eauto]. }
  replace (timeout =? -1) with false by (symmetry; by apply Z.eqb_neq).
  cbn [negb andb].
  destruct (TIMEOUT_MAX <? Z.abs timeout);
    unfold try_finally, try_except, bind; rewrite set___lock___same, Hrel;
    simpl; by rewrite set___lock___same.
Qed.

End LockLifecycle.

(** ** Memoization, type checks and suppression *)

Section MemoizeFailures.

Context {Args Kwargs R St : Type}.
Variable str_args : Args -> string.
Variable str_kwargs : Kwargs -> string.
Variable obj : Args -> Kwargs -> Py (@MemoWorld R St) R.

(** X17: the memoizing wrapper raises only what the body raises in that
    very call: the key was not in the cache, the body ran and raised, and
    the wrapper stored nothing on top of what the body left. The lookup
    that ends the wrapper never fails, so no [KeyError] of its own. *)
Theorem memoizer_raises_only_body (args : Args) (kwargs : Kwargs)
    (w : MemoWorld) (e : exn) :
  (memoizer str_args str_kwargs obj args kwargs w).1 = Raise e ->
  cache w !! memo_key str_args str_kwargs args kwargs = None /\
  obj args kwargs w =
    (Raise e, (memoizer str_args str_kwargs obj args kwargs w).2).
Proof.
  unfold memoizer, bind, cache_getitem.
  destruct (decide (cache w !! memo_key str_args str_kwargs args kwargs = None))
    as [Hnone|Hsome].
  - destruct (obj args kwargs w) as [[v|e'] w'] eqn:Hobj.
    + unfold modify. simpl. by rewrite lookup_insert_eq.
    + simpl. by intros [= ->].
  - unfold ret.
    destruct (cache w !! memo_key str_args str_kwargs args kwargs); done.
Qed.

(** X18: the cache has no eviction: if the bodies do not remove or change
    entries, an entry that is in the cache is still there, with the same
    value, after any run of calls of the memoized callable. *)
Theorem memoize_never_evicts
    (obj_keeps_entries :
       forall args kwargs w, cache w ⊆ cache (obj args kwargs w).2)
    (calls : list (Args * Kwargs)) (w : MemoWorld) (key : string) (v : R) :
  cache w !! key = Some v ->
  cache (memo_calls str_args str_kwargs obj calls w) !! key = Some v.
Proof.
  intros Hin. revert w Hin.
  induction calls as [|[args kwargs] rest IH]; intros w Hin; [done |].
  simpl. apply IH.
  apply (lookup_weaken (cache w)); [done |].
  by apply memoizer_keeps_entries.
Qed.

End MemoizeFailures.

Section TypecheckedOrder.

Context {Val Ty R W : Type}.
Variable isinstance : Val -> Ty -> bool.

(** X19: for a callable whose class-annotated parameters are all
    positional-or-keyword parameters: when the arguments bound to several
    parameters have the wrong class, the type error names the first of
    these parameters in the order of the [def], and the body is not
    run. *)
Theorem typechecked_names_first_mismatch (sig : signature)
    (target : @function Val Ty R W)
    (args : list Val) (kwargs : gmap string Val) (w : W)
    (index : nat) (name : string) (t : Ty) (v : Val) :
  co_varnames target = signature_varnames sig ->
  annotated_are_positional sig (__annotations__ target) ->
  positional sig !! index = Some name ->
  __annotations__ target !! name = Some (AnnType t) ->
  bound_positional args kwargs index name = Some v ->
  isinstance v t = false ->
  (forall j name' t' v', (j < index)%nat ->
     positional sig !! j = Some name' ->
     __annotations__ target !! name' = Some (AnnType t') ->
     bound_positional args kwargs j name' = Some v' ->
     isinstance v' t' = true) ->
  typechecked_wrapped isinstance target args kwargs w =
    (Raise (incorrect_type name), w).
Proof.
  intros Hnames Hpos Hname Ht Hv Hno Hfirst.
  pose proof (check_arguments_first_mismatch isinstance
                (__annotations__ target) args kwargs (co_varnames target) 0)
    as Hloop.
  assert (co_varnames target !! index = Some name) as Hname'.
  { rewrite Hnames. by apply signature_varnames_positional. }
  assert (mismatch isinstance (__annotations__ target) args kwargs index name)
    as Hm by (by exists t, v).
  unfold typechecked_wrapped, bind, lift.
  destruct (check_arguments _ _ _ _ _ _) as [[]|e]; simpl in Hloop.
  - by destruct (Hloop index name Hname').
  - destruct Hloop as (j & name' & Hj & (t' & v' & Ht' & Hv' & Hno') & ->
                       & Hfirst').
    destruct (Nat.lt_trichotomy j index) as [Hlt|[->|Hgt]].
    + assert (positional sig !! j = Some name') as Hpj.
      { pose proof (lookup_lt_Some _ _ _ Hname) as Hlen.
        rewrite Hnames in Hj. unfold signature_varnames in Hj.
        rewrite lookup_app_l in Hj by lia. done. }
      pose proof (Hfirst j name' t' v' Hlt Hpj Ht' Hv'). congruence.
    + by simplify_eq.
    + by destruct (Hfirst' index name Hgt Hname').
Qed.

End TypecheckedOrder.

Section SuppressOutcomes.

Context {A R W : Type}.
Variable format_exc : exn -> string.

(** X20: what a callable under [suppress_exceptions] does, by what its
    body does. The body returns: the wrapper returns the same value in the
    same world and logs nothing. The body raises an [Exception]: the
    wrapper returns [None], logs exactly one warning, the traceback after
    ["Exception suppressed:"], and leaves the world as the body left it.
    The body raises something outside [Exception] ([KeyboardInterrupt],
    [SystemExit]): it passes through, unlogged. So the wrapper never raises
    an [Exception], and logs exactly when it hides one. *)
Theorem suppress_wrapped_outcomes (target : A -> Py (@Logged W) R) (args : A)
    (w : Logged) :
  match target args w with
  | (Return r, w') =>
      suppress_wrapped format_exc target args w = (Return (Some r), w')
  | (Raise e, w') =>
      if is_Exception e then
        (suppress_wrapped format_exc target args w).1 = Return None /\
        warnings (suppress_wrapped format_exc target args w).2 =
          warnings w' ++
          ["Exception suppressed:" +:+ newline +:+ format_exc e] /\
        logged_world (suppress_wrapped format_exc target args w).2 =
          logged_world w'
      else
        suppress_wrapped format_exc target args w = (Raise e, w')
  end.
Proof.
  unfold suppress_wrapped, try_except, returning, bind.
  destruct (target args w) as [[r|e] w']; simpl; [done |].
  by destruct (is_Exception e).
Qed.

End SuppressOutcomes.

(** * Further worked examples *)

Lemma sequencing_keeps_selection_ok_witness :
  selection_ok (show [cue_a; cue_b; cue_c] 1 true Stop) /\
  selection_ok (go Default 1 (show [cue_a; cue_b; cue_c] 1 true Stop)).2 /\
  selection_ok
    (__cue_next list_get cue_a (show [cue_a; cue_b; cue_c] 1 true Stop)).2.
Proof.
  assert (selection_ok (show [cue_a; cue_b; cue_c] 1 true Stop)) as Hok.
  { split; [reflexivity |]. right. vm_compute. split; [discriminate | reflexivity]. }
  destruct (sequencing_keeps_selection_ok list_get
              (show [cue_a; cue_b; cue_c] 1 true Stop) 0 1 Default cue_a Hok)
    as (_ & (_ & Hgo) & (_ & Hnext)).
  split; [exact Hok |]. split; [exact Hgo | exact Hnext].
Defined.

(** Four presses of GO from the second of three cues: under [Restart] the
    selection ends on row [(1 + 4) mod 3 = 2]. *)
Lemma go_times_restart_witness :
  exists l',
    go_times 4 (show [cue_a; cue_b; cue_c] 1 true Restart) = (Return tt, l') /\
    current_index l' = 2 /\
    events l' =
      [CueExecute cue_b (Some Default); CueExecutedEmit cue_b;
       CueExecute cue_c (Some Default); CueExecutedEmit cue_c;
       CueExecute cue_a (Some Default); CueExecutedEmit cue_a;
       CueExecute cue_b (Some Default); CueExecutedEmit cue_b].
Proof.
  destruct (go_times_restart (show [cue_a; cue_b; cue_c] 1 true Restart) 4
              eq_refl eq_refl eq_refl)
    as (l' & Hrun & Hrow & Hev).
  { vm_compute. split; [discriminate | reflexivity]. }
  exists l'. split; [exact Hrun |]. split; [exact Hrow | exact Hev].
Defined.

(** The same under [Stop]: the last cue is executed three times. *)
Lemma go_times_stop_witness :
  exists l',
    go_times 4 (show [cue_a; cue_b; cue_c] 1 true Stop) = (Return tt, l') /\
    current_index l' = 2 /\
    events l' =
      [CueExecute cue_b (Some Default); CueExecutedEmit cue_b;
       CueExecute cue_c (Some Default); CueExecutedEmit cue_c;
       CueExecute cue_c (Some Default); CueExecutedEmit cue_c;
       CueExecute cue_c (Some Default); CueExecutedEmit cue_c].
Proof.
  destruct (go_times_stop (show [cue_a; cue_b; cue_c] 1 true Stop) 4
              eq_refl eq_refl eq_refl)
    as (l' & Hrun & Hrow & Hev).
  { vm_compute. split; [discriminate | reflexivity]. }
  exists l'. split; [exact Hrun |]. split; [exact Hrow | exact Hev].
Defined.

Lemma cue_next_then_go_witness :
  exists l1 l2,
    __cue_next list_get cue_a (show [cue_a; cue_b; cue_c] 1 true Stop) =
      (Return tt, l1) /\
    current_index l1 = 2 /\
    go Default 1 l1 = (Return tt, l2) /\
    events l2 =
      [CueExecute cue_b None; CueExecute cue_c (Some Default);
       CueExecutedEmit cue_c].
Proof.
  exact (cue_next_then_go list_get list_get_hit
           (show [cue_a; cue_b; cue_c] 1 true Stop) cue_a cue_b cue_c
           Default 1 eq_refl eq_refl eq_refl eq_refl eq_refl).
Defined.

Example init_end_list_lowercase :
  init_end_list {["EndList" := "restart"]} = Return Stop.
Proof. vm_compute. reflexivity. Qed.

Lemma select_all_spec_witness :
  select_all isinstance_kind list_get MediaCueKind [cue_a; cue_b; cue_c]
    items_abc =
    (Return tt,
     [ {| cue := cue_a; selected := true |};
       {| cue := cue_b; selected := true |};
       {| cue := cue_c; selected := false |} ]).
Proof.
  exact (proj1 (select_all_spec isinstance_kind list_get list_get_hit
                  MediaCueKind [cue_a; cue_b; cue_c] items_abc eq_refl)).
Defined.

Lemma deselect_all_spec_witness :
  deselect_all isinstance_kind list_get AnyCue [cue_a; cue_b; cue_c]
    items_abc =
    (Return tt,
     [ {| cue := cue_a; selected := false |};
       {| cue := cue_b; selected := false |};
       {| cue := cue_c; selected := false |} ]).
Proof.
  exact (proj1 (deselect_all_spec isinstance_kind list_get list_get_hit
                  AnyCue [cue_a; cue_b; cue_c] items_abc eq_refl)).
Defined.

Example invert_selection_abc :
  get_selected_cues isinstance_kind AnyCue (invert_selection items_abc) =
    [cue_b; cue_c].
Proof. reflexivity. Qed.

(** A memoized body that raises is run again by the next call. *)
Lemma memoizer_raises_only_body_witness :
  cache memo_start !! memo_key str_tuple str_dict [1; 2] [] = None /\
  memo_state
    (memo_calls str_tuple str_dict failing_body [([1; 2], []); ([1; 2], [])]
       memo_start) = 2%nat.
Proof.
  split.
  - apply (memoizer_raises_only_body str_tuple str_dict failing_body
             [1; 2] [] memo_start (ValueError "bad")).
    vm_compute. reflexivity.
  - vm_compute. reflexivity.
Defined.

Lemma memoize_never_evicts_witness :
  cache
    (memo_calls str_tuple str_dict sum_body [([2; 1], []); ([5], [])]
       (memoizer str_tuple str_dict sum_body [1; 2] [] memo_start).2)
    !! "(1, 2){}" = Some 3.
Proof.
  apply (memoize_never_evicts str_tuple str_dict sum_body
           sum_body_keeps_entries).
  vm_compute. reflexivity.
Defined.

(** Thread 0 is inside [play], decorated with [lock_name="transport"];
    thread 1 calls [stop], decorated with the same name, without blocking,
    and gets [None]. *)
Lemma shared_lock_name_excludes_witness :
  synchronized_method_wrapped raising_method "stop" (Some "transport")
    false (-1) 1%nat tt (object_with_lock "transport" (Locked 0%nat 0)) =
    Some (Return None, object_with_lock "transport" (Locked 0%nat 0)) /\
  synchronized_method_wrapped raising_method "stop" (Some "transport")
    true (-1) 1%nat tt (object_with_lock "transport" (Locked 0%nat 0)) = None.
Proof.
  assert (get_or_create_lock (resolved_lock_name "play" (Some "transport"))
            fresh_object = (O, object_with_lock "transport" Unlocked))
    as Hget.
  { vm_compute. reflexivity. }
  assert (RLock_acquire 0%nat true (-1)
            (lock_state O (object_with_lock "transport" Unlocked)) =
          Some (Return true, Locked 0%nat 0)) as Hacq.
  { vm_compute. reflexivity. }
  assert (set_lock_state O (Locked 0%nat 0)
            (object_with_lock "transport" Unlocked) =
          object_with_lock "transport" (Locked 0%nat 0)) as Hinside.
  { vm_compute. reflexivity. }
  destruct (shared_lock_name_excludes raising_method raising_method
              "play" "stop" "transport" true false (-1) (-1) 0%nat 1%nat
              tt tt fresh_object (object_with_lock "transport" Unlocked)
              O (Locked 0%nat 0) (Nat.neq_0_succ 0) eq_refl Hget Hacq)
    as (_ & _ & Hgives & Hwaits).
  rewrite Hinside in Hgives, Hwaits.
  split; [| exact Hwaits].
  apply Hgives. left. split; reflexivity.
Defined.

(** Without [lock_name], [stop] is not held up by the lock of [play]:
    thread 1 gets a lock of its own while thread 0 is inside [play]. *)
Lemma generated_lock_names_independent_witness :
  exists lB w0 o w1 w',
    lB <> O /\
    (lock_state O w0 = Locked 0%nat 0 /\ lock_state lB w0 = Locked 1%nat 0) /\
    raising_method tt w0 = (o, w1) /\
    synchronized_method_wrapped raising_method "stop" None true (-1) 1%nat tt
      (set_lock_state O (Locked 0%nat 0)
         (object_with_lock "__play_lock__" Unlocked)) =
      Some (outcome_some o, w').
Proof.
  assert ("play" <> "stop") as Hnames by discriminate.
  assert (valid_acquire_args true (-1)) as Hvalid.
  { split; [discriminate | split; discriminate]. }
  destruct (generated_lock_names_independent raising_method "play" "stop"
              true (-1) 0%nat 1%nat tt fresh_object
              Hnames Hvalid eq_refl eq_refl eq_refl)
    as (lB & w0 & o & w1 & w' & Hne & (_ & _ & HA & HB) & Hbody & Hw & _).
  exists lB, w0, o, w1, w'.
  split; [exact Hne |]. split; [split; [exact HA | exact HB] |].
  split; [exact Hbody | exact Hw].
Defined.

Example generated_lock_names_independent_computed :
  exists w',
    synchronized_method_wrapped raising_method "stop" None true (-1) 1%nat tt
      (set_lock_state O (Locked 0%nat 0)
         (object_with_lock "__play_lock__" Unlocked)) =
      Some (Raise (UserError "boom"), w') /\
    self_attrs w' !! "__play_lock__" = Some O /\
    self_attrs w' !! "__stop_lock__" = Some 1%nat /\
    lock_state O w' = Locked 0%nat 0 /\
    lock_state 1%nat w' = Unlocked.
Proof.
  eexists. split; [vm_compute; reflexivity |].
  repeat split; vm_compute; reflexivity.
Qed.

(** The first call of [play] on a fresh object makes a lock and sets
    [__play_lock__] to it before the body runs. *)
Lemma synchronized_method_lock_attribute_witness :
  exists l w0 o w1 w',
    (lock_objects fresh_object !! l = None /\
     forall other, self_attrs fresh_object !! other <> Some l) /\
    (self_attrs w0 =
       <[resolved_lock_name "play" None := l]> (self_attrs fresh_object) /\
     lock_state l w0 = Locked 1%nat 0 /\
     (forall l', l' <> l ->
        lock_objects w0 !! l' = lock_objects fresh_object !! l') /\
     meth_state w0 = meth_state fresh_object) /\
    forgetful_method tt w0 = (o, w1) /\
    synchronized_method_wrapped forgetful_method "play" None true (-1) 1%nat
      tt fresh_object = Some (outcome_some o, w') /\
    self_attrs w' = self_attrs w1.
Proof.
  assert (valid_acquire_args true (-1)) as Hvalid.
  { split; [discriminate | split; discriminate]. }
  exact (proj1 (synchronized_method_lock_attribute forgetful_method "play"
                  None true (-1) 1%nat tt fresh_object eq_refl Hvalid)
           eq_refl).
Defined.

(** Thread 1 holds the lock of the function twice and calls again. *)
Lemma synchronized_reentrant_witness :
  exists w0 o w1 w',
    __lock__ w0 = Locked 1%nat 2 /\
    raising_function tt w0 = (o, w1) /\
    synchronized raising_function true 5 1%nat tt
      {| __lock__ := Locked 1%nat 1; fun_state := O |} =
      Some (outcome_some o, w') /\
    __lock__ w' = (RLock_release 1%nat (__lock__ w1)).2.
Proof.
  assert (valid_acquire_args true 5) as Hvalid.
  { split; [discriminate | split; discriminate]. }
  destruct (proj1 (synchronized_reentrant raising_function raising_method
                     "play" None true 5 1%nat tt 1%nat Hvalid)
              {| __lock__ := Locked 1%nat 1; fun_state := O |} eq_refl)
    as (w0 & o & w1 & w' & H0 & _ & Hbody & Hw & Hl & _).
  exists w0, o, w1, w'.
  split; [exact H0 |]. split; [exact Hbody |]. split; [exact Hw | exact Hl].
Defined.

Example synchronized_reentrant_computed :
  synchronized raising_function true 5 1%nat tt
    {| __lock__ := Locked 1%nat 1; fun_state := O |} =
    Some (Raise (UserError "boom"),
          {| __lock__ := Locked 1%nat 1; fun_state := 1%nat |}).
Proof. vm_compute. reflexivity. Qed.

Lemma synchronized_rejects_timeout_without_blocking_witness :
  synchronized raising_function false 5 1%nat tt
    {| __lock__ := Unlocked; fun_state := O |} =
    Some (Raise (ValueError "can't specify a timeout for a non-blocking call"),
          {| __lock__ := Unlocked; fun_state := O |}).
Proof.
  exact (synchronized_rejects_timeout_without_blocking raising_function
           false 5 1%nat tt {| __lock__ := Unlocked; fun_state := O |}
           eq_refl ltac:(discriminate) eq_refl).
Defined.

(** [fn2(a: int, b: str)] called as [fn2("x", 1)]: both arguments are
    wrong, the error names [a]. *)
Lemma typechecked_names_first_mismatch_witness :
  typechecked_wrapped isinstance_val fn_a_int_b_str [VStr "x"; VInt 1] ∅ O =
    (Raise (incorrect_type "a"), O).
Proof.
  assert (annotated_are_positional sig_a_b (__annotations__ fn_a_int_b_str))
    as Hpos.
  { intros [|[|index]] name t Hname _; [simpl; lia | simpl; lia |].
    by destruct index. }
  apply (typechecked_names_first_mismatch isinstance_val sig_a_b
           fn_a_int_b_str [VStr "x"; VInt 1] ∅ O 0%nat "a" PyInt (VStr "x")
           eq_refl Hpos eq_refl).
  - vm_compute. reflexivity.
  - reflexivity.
  - reflexivity.
  - intros j name' t' v' Hj. inversion Hj.
Defined.

Example typechecked_second_also_wrong :
  violation isinstance_val sig_a_b (__annotations__ fn_a_int_b_str)
    [VStr "x"; VInt 1] ∅ "b".
Proof.
  exists PyStr, (VInt 1). split; [vm_compute; reflexivity |].
  split; [reflexivity |]. left. exists 1%nat. split; reflexivity.
Qed.

Example suppress_wrapped_always_raises :
  suppress_wrapped (fun _ => "traceback")
    (@always_raises unit unit (@Logged unit)) tt
    {| warnings := []; logged_world := tt |} =
    (Return None,
     {| warnings := ["Exception suppressed:" +:+ newline +:+ "traceback"];
        logged_world := tt |}).
Proof. vm_compute. reflexivity. Qed.

